(** * calendar-analyzer: a shallow embedding of [analyze.py]

    The script reads a calendar, keeps the events that pass the all-day and
    date filters, renames every event through an ordered list of
    [/pattern/replacement/flags] rules and prints the hours spent per
    resulting name.

    The model:
    - [Text]      characters and strings as the script sees them;
    - [Pyparsing] the parser elements that [regexBNF] is built from;
    - [Rules]     [regexBNF] itself and the regex string of a rule;
    - [Py]        the effects of the script: printed lines and exceptions;
    - [Binary64]  the value of a floating-point quotient;
    - [Re]        the interface of the regular-expression engine;
    - [Analyze]   [_group], [_total_hours], [_parse_regexes],
                  [_process_calendar], [_valid_date], the command line as
                  argparse reads it and [main];
    - [MiniRe], [MiniArrow], [Samples]
                  a small engine, a small date library and a calendar,
                  for the examples.

    The properties follow: the accumulator, the filters, the sort of the
    report, the hours, the aggregation, the rule grammar, the run and its
    output, the printout, the arguments of the command line, and the
    examples of the specification. *)

From Stdlib Require Import Bool Arith ZArith Lia List.
From Stdlib Require Import QArith Qround Qpower Lqa.
From Stdlib Require Import Ascii String.
From Stdlib Require Floats Uint63.
From Stdlib Require Import Sorting.Sorted Sorting.Permutation.
Import ListNotations.

Local Close Scope Q_scope.
Local Open Scope list_scope.
Local Open Scope string_scope.

(** ** Characters and strings

    A character is one of the 256 of Latin-1, the encoding in which the
    calendar is read.  A rule string of the command line may hold others;
    the grammar treats them like the characters above 126 here, which are
    neither white space nor printable. *)

Module Text.

Definition TAB : ascii := "009"%char.
Definition LF : ascii := "010"%char.
Definition CR : ascii := "013"%char.
Definition SPACE : ascii := " "%char.
Definition SLASH : ascii := "/"%char.

(** pyparsing's [DEFAULT_WHITE_CHARS], the string [" \n\t\r"]. *)
Definition white (c : ascii) : bool :=
  Ascii.eqb c SPACE || Ascii.eqb c LF || Ascii.eqb c TAB || Ascii.eqb c CR.

(** [pp.printables]: the characters of [string.printable] that are not
    white space, that is the codes 33 to 126. *)
Definition printable (c : ascii) : bool :=
  (33 <=? nat_of_ascii c)%nat && (nat_of_ascii c <=? 126)%nat.

(** The longest prefix of [s] whose characters satisfy [ok], and the rest. *)
Fixpoint span (ok : ascii -> bool) (s : string) : string * string :=
  match s with
  | String c r =>
      if ok c then let (w, r') := span ok r in (String c w, r') else ("", s)
  | EmptyString => ("", "")
  end.

Fixpoint all_chars (ok : ascii -> bool) (s : string) : bool :=
  match s with
  | String c r => ok c && all_chars ok r
  | EmptyString => true
  end.

Fixpoint spaces (n : nat) : string :=
  match n with
  | O => ""
  | S k => String SPACE (spaces k)
  end.

(** [str.expandtabs()] with the default tab size 8: [col] is the column
    of the next character; a tab becomes the 1 to 8 blanks that reach
    the next multiple of 8, a line feed or carriage return starts a new
    line. *)
Fixpoint expandtabs_from (col : nat) (s : string) : string :=
  match s with
  | String c r =>
      if Ascii.eqb c TAB then
        let incr := 8 - col mod 8 in
        spaces incr ++ expandtabs_from (col + incr) r
      else if Ascii.eqb c LF || Ascii.eqb c CR then
        String c (expandtabs_from 0 r)
      else String c (expandtabs_from (S col) r)
  | EmptyString => ""
  end.

Definition expandtabs (s : string) : string := expandtabs_from 0 s.

(** [''.join(l)] *)
Definition join (l : list string) : string := String.concat "" l.

End Text.

(** ** The pyparsing elements used by the script

    A position in the input is the text that is left.  An element either
    fails (pyparsing raises [ParseException]) or returns its tokens and the
    text left after it.  [parseImpl] is the element proper; [_parse] first
    skips white space ([preParse]), which every element of the script does,
    none of them being built with [leaveWhitespace()]. *)

Module Pyparsing.
Import Text.

Definition ParseResults : Type := list string.

Record ParserElement : Type := Element
  { parseImpl : string -> option (ParseResults * string) }.

Fixpoint preParse (s : string) : string :=
  match s with
  | String c r => if white c then preParse r else s
  | EmptyString => ""
  end.

Definition _parse (e : ParserElement) (s : string)
  : option (ParseResults * string) :=
  parseImpl e (preParse s).

(** [pp.Literal(c)] for a one-character literal. *)
Definition Literal (c : ascii) : ParserElement :=
  Element (fun s =>
    match s with
    | String d r => if Ascii.eqb d c then Some ([String c ""], r) else None
    | EmptyString => None
    end).

(** [e.suppress()]: match [e], drop its tokens. *)
Definition suppress (e : ParserElement) : ParserElement :=
  Element (fun s =>
    match parseImpl e s with
    | Some (_, r) => Some ([], r)
    | None => None
    end).

(** [pp.Word(chars)]: one or more characters of [chars], as many as
    there are. *)
Definition Word (chars : ascii -> bool) : ParserElement :=
  Element (fun s =>
    match span chars s with
    | (EmptyString, _) => None
    | (w, r) => Some ([w], r)
    end).

(** [e1 + e2] *)
Definition And (e1 e2 : ParserElement) : ParserElement :=
  Element (fun s =>
    match parseImpl e1 s with
    | Some (t1, r1) =>
        match _parse e2 r1 with
        | Some (t2, r2) => Some ((t1 ++ t2)%list, r2)
        | None => None
        end
    | None => None
    end).

(** [e1 ^ e2]: the alternative that matches the longer text, the first
    one on a tie. *)
Definition Or (e1 e2 : ParserElement) : ParserElement :=
  Element (fun s =>
    match _parse e1 s, _parse e2 s with
    | Some (t1, r1), Some (t2, r2) =>
        if (String.length r1 <=? String.length r2)%nat
        then Some (t1, r1) else Some (t2, r2)
    | Some x, None => Some x
    | None, Some y => Some y
    | None, None => None
    end).

(** [pp.Optional(e)] *)
Definition Optional (e : ParserElement) : ParserElement :=
  Element (fun s =>
    match parseImpl e s with
    | Some x => Some x
    | None => Some ([], s)
    end).

(** The loop of [pp.ZeroOrMore(e)] after its first match: [e] is tried
    again, behind skipped white space, until it fails.  Every match of an
    element of this script consumes a character, so [fuel] greater than
    the length of the text is never used up. *)
Fixpoint ZeroOrMore_loop (fuel : nat) (e : ParserElement) (s : string)
  : ParseResults * string :=
  match fuel with
  | O => ([], s)
  | S k =>
      match _parse e s with
      | Some (t, r) => let (ts, r') := ZeroOrMore_loop k e r in ((t ++ ts)%list, r')
      | None => ([], s)
      end
  end.

Definition ZeroOrMore (e : ParserElement) : ParserElement :=
  Element (fun s =>
    match parseImpl e s with
    | Some (t, r) =>
        let (ts, r') := ZeroOrMore_loop (S (String.length r)) e r in
        Some ((t ++ ts)%list, r')
    | None => Some ([], s)
    end).

(** [pp.StringEnd()] *)
Definition StringEnd : ParserElement :=
  Element (fun s =>
    match s with
    | EmptyString => Some ([], "")
    | String _ _ => None
    end).

(** [e.parseString(s)]: tabs are expanded first ([parseWithTabs()] is not
    called by the script), then [e] is matched at the start of the
    text. *)
Definition parseString (e : ParserElement) (instring : string)
  : option ParseResults :=
  match _parse e (expandtabs instring) with
  | Some (tokens, _) => Some tokens
  | None => None
  end.

End Pyparsing.

Declare Scope pp_scope.
Delimit Scope pp_scope with pp.
Infix "+" := Pyparsing.And : pp_scope.
Infix "^" := Pyparsing.Or : pp_scope.

(** ** The rule grammar *)

Module Rules.
Import Text Pyparsing.

(** [pp.printables + ' \t\n\r'] without [excludeChars='/'] *)
Definition pattern_char (c : ascii) : bool :=
  (printable c || white c) && negb (Ascii.eqb c SLASH).

(** The grammar, as [_parse_regexes] writes it.  Python groups [^] to the
    left and Rocq to the right; the alternatives are one-character
    literals that differ, so that at most one of them matches. *)
Definition regexBNF : ParserElement :=
  (suppress (Literal "/") +
   Word pattern_char +
   suppress (Literal "/") +
   Word pattern_char +
   Optional (suppress (Literal "/") +
             ZeroOrMore (Literal "i" ^ Literal "L" ^ Literal "s" ^
                         Literal "u" ^ Literal "x")) +
   StringEnd)%pp.

(** Lines 67 to 70 of [_parse_regexes]: the regex that is compiled and the
    replacement, from the tokens of a rule.  [regexBNF] returns at least
    two tokens, so the last case ([IndexError]) is never met. *)
Definition rule_strings (parsed : ParseResults) : option (string * string) :=
  match parsed with
  | regex_str :: replace_str :: flags =>
      if (2 <? List.length parsed)%nat
      then Some ("(?" ++ join flags ++ ")" ++ regex_str, replace_str)
      else Some (regex_str, replace_str)
  | _ => None
  end.

Definition parse_rule (regex : string) : option (string * string) :=
  match parseString regexBNF regex with
  | Some parsed => rule_strings parsed
  | None => None
  end.

End Rules.

(** ** Effects of the script: printed lines and exceptions *)

Module Py.

(** A point in time.  Arrow objects are compared as instants, whatever
    their time zone. *)
Definition instant : Type := Z.

(** The lines the script prints, by the format string that makes them. *)
Inductive line : Type :=
| Processing (start_date end_date : option instant)
    (** ['Processing events from {0} to {1}'] *)
| Unable (regex : string)
    (** ['Unable to parse regex {0}'] *)
| Replacing (regex_str replace_str : string)
    (** ['Replacing {0} with {1}'] *)
| Hours (name : string) (hours : Q)
    (** ['{0}: {1}'] *).

(** What [parser.error] of argparse writes on stderr, behind the usage
    of the script, before it leaves the script with [sys.exit(2)]. *)
Inductive usage : Type :=
| argument_error (argument message : string)
    (** ['argument {0}: {1}'], [message] that of an [ArgumentTypeError] *)
| invalid_value (argument type_name arg_string : string)
    (** ['argument {0}: invalid {1} value: {2!r}'] *)
| required_arguments (arguments : string)
    (** ['the following arguments are required: {0}'] *).

Inductive exn : Type :=
| ParseException (pstr : string)    (** pyparsing, on the text [pstr] *)
| re_error (pattern : string)       (** [re.compile(pattern)] failed *)
| IndexError
| TypeError
| ValueError
| ParserError                       (** [arrow.parser.ParserError] *)
| ArgumentTypeError (msg : string)
| SystemExit (code : Z) (error : usage).

(** A computation prints lines and then returns or raises. *)
Definition M (A : Type) : Type := (list line * (exn + A))%type.

Definition ret {A} (a : A) : M A := ([], inr a).

Definition bind {A B} (m : M A) (f : A -> M B) : M B :=
  match m with
  | (out, inl e) => (out, inl e)
  | (out, inr a) => let (out', r) := f a in (out ++ out', r)%list
  end.

Definition print (l : line) : M unit := ([l], inr tt).

Definition raise {A} (e : exn) : M A := ([], inl e).

Definition stdout {A} (m : M A) : list line := fst m.

Definition outcome {A} (m : M A) : exn + A := snd m.

End Py.

Declare Scope py_scope.
Delimit Scope py_scope with py.
Notation "x <- m ;; k" := (Py.bind m (fun x => k))
  (at level 61, m at next level, right associativity) : py_scope.
Notation "m ;; k" := (Py.bind m (fun _ => k))
  (at level 61, right associativity) : py_scope.

(** ** Floating-point quotients

    A float of Python is a binary64 number of IEEE 754: a rational
    [m * 2 ^ e] with [m] of at most 53 bits.  A division of floats gives
    the float that is nearest to the exact quotient, the one with the even
    [m] when two are as near.  [round x] is that float for the exact
    result [x], by its value; the exponent is not bounded here, which
    makes no difference between [2 ^ -1022] and [2 ^ 1024], where the
    hours of any number of seconds below [2 ^ 53] lie. *)

Module Binary64.
Local Open Scope Q_scope.

(** The integer nearest to [x], the even one of two that are as near. *)
Definition rne (x : Q) : Z :=
  let f := Qfloor x in
  match Qcompare (x - inject_Z f) (1 # 2) with
  | Lt => f
  | Gt => (f + 1)%Z
  | Eq => if Z.even f then f else (f + 1)%Z
  end.

(** The exponent [e] of [0 < x]: [2 ^ e <= x < 2 ^ (e + 1)]. *)
Definition exponent (x : Q) : Z :=
  if Qle_bool 1 x then Z.log2 (Qfloor x)
  else (- Z.log2_up (Qceiling (/ x)))%Z.

(** The float nearest to [0 < x]: 53 bits, the first of them at
    [2 ^ exponent x]. *)
Definition round_pos (x : Q) : Q :=
  let e := exponent x in
  inject_Z (rne (x * 2 ^ (52 - e))) * 2 ^ (e - 52).

Definition round (x : Q) : Q :=
  match Qnum x with
  | Z0 => 0
  | Zpos _ => round_pos x
  | Zneg _ => - round_pos (- x)
  end.

(** The floats of the kernel, for comparison: the value of a float, and
    the quotient of two integers below [2 ^ 53] as the processor
    computes it. *)
Definition value (f : PrimFloat.float) : option Q :=
  match FloatOps.Prim2SF f with
  | SpecFloat.S754_zero _ => Some 0
  | SpecFloat.S754_finite s m e =>
      Some ((if s then - (1) else 1) * inject_Z (Zpos m) * 2 ^ e)
  | _ => None
  end.

Definition float (z : Z) : PrimFloat.float :=
  if (z <? 0)%Z then PrimFloat.opp (PrimFloat.of_uint63 (Uint63.of_Z (- z)))
  else PrimFloat.of_uint63 (Uint63.of_Z z).

Definition quotient (a b : Z) : option Q :=
  value (PrimFloat.div (float a) (float b)).

End Binary64.

(** ** The regular-expression engine

    [re.compile] and [Pattern.match] belong to Python, not to the script;
    the script is modelled over any engine.  [compile] returns [None] where
    [re.compile] raises [re.error]; [matches p s] tells whether [p.match(s)]
    is a match object (which is always true in a condition) rather than
    [None]. *)

Class Re : Type :=
  { Pattern : Type;
    compile : string -> option Pattern;
    matches : Pattern -> string -> bool }.

(** ** The script *)

Module Analyze.
Import Text Pyparsing Rules Py.
Local Open Scope py_scope.

(** An event of the calendar, as the script reads it from [ics]: it has
    a name, and its duration is a whole number of seconds, the times of a
    calendar file having no fraction of a second. *)
Record Event : Type :=
  { name : string;
    begin : instant;
    end_ : instant;
    all_day : bool;
    duration : Z  (** [event.duration.total_seconds()] *) }.

(** [_total_hours]: the float [seconds / 3600.0], by its value.  The
    seconds are a sum of floats that are whole numbers, which is a float
    itself, without rounding, as long as it stays below [2 ^ 53]. *)
Definition _total_hours (seconds : Z) : Q :=
  Binary64.round (inject_Z seconds / 3600)%Q.

(** The [defaultdict(lambda: 0)] of [_process_calendar], its keys in the
    order of their first insertion, which is the order of [items()] and
    so the order that the stable sort of the report keeps between groups
    of equal duration. *)
Definition dict : Type := list (string * Z).

Fixpoint get (groups : dict) (key : string) : Z :=
  match groups with
  | [] => 0
  | (k, v) :: rest => if String.eqb k key then v else get rest key
  end.

(** [groups[key] += seconds]: a key that is missing is first inserted
    with the default 0. *)
Fixpoint add (groups : dict) (key : string) (seconds : Z) : dict :=
  match groups with
  | [] => [(key, 0 + seconds)%Z]
  | (k, v) :: rest =>
      if String.eqb k key then (k, (v + seconds)%Z) :: rest
      else (k, v) :: add rest key seconds
  end.

Definition keys (groups : dict) : list string := map fst groups.

Definition values (groups : dict) : list Z := map snd groups.

(** [sorted(items, key=lambda item: item[1], reverse=True)]: a stable sort
    into descending order of the second component. *)
Fixpoint insert_desc (item : string * Z) (l : list (string * Z))
  : list (string * Z) :=
  match l with
  | [] => [item]
  | y :: ys =>
      if (snd y <=? snd item)%Z then item :: y :: ys
      else y :: insert_desc item ys
  end.

Definition sorted_desc (items : list (string * Z)) : list (string * Z) :=
  fold_right insert_desc [] items.

Section WithEngine.
Context {engine : Re}.

(** A rule as [_parse_regexes] returns it. *)
Definition rule : Type := (Pattern * string)%type.

(** [_group]: the replacement of the first rule whose pattern matches
    [s], else [s]. *)
Fixpoint _group (s : string) (groups : list rule) : string :=
  match groups with
  | [] => s
  | (pattern, replacement) :: rest =>
      if matches pattern s then replacement else _group s rest
  end.

(** One turn of the loop of [_parse_regexes]. *)
Definition parse_one (regex : string) : M rule :=
  parsed <- match parseString regexBNF regex with
            | Some parsed => ret parsed
            | None =>
                print (Unable regex) ;;
                raise (ParseException (expandtabs regex))
            end ;;
  match rule_strings parsed with
  | Some (regex_str, replace_str) =>
      print (Replacing regex_str replace_str) ;;
      match compile regex_str with
      | Some pattern => ret (pattern, replace_str)
      | None => raise (re_error regex_str)
      end
  | None => raise IndexError
  end.

(** The loop of [_parse_regexes], from the rules in [results]. *)
Fixpoint parse_from (results : list rule) (regexes : list string)
  : M (list rule) :=
  match regexes with
  | [] => ret results
  | regex :: rest =>
      r <- parse_one regex ;;
      parse_from (results ++ [r])%list rest
  end.

Definition _parse_regexes (regexes : list string) : M (list rule) :=
  parse_from [] regexes.

(** The three [continue] tests of the loop of [_process_calendar]. *)
Definition skipped (start_date end_date : option instant) (allday : bool)
           (event : Event) : bool :=
  if negb allday && all_day event then true
  else if match start_date with
          | Some d => (begin event <? d)%Z
          | None => false
          end then true
  else if match end_date with
          | Some d => (end_ event >? d)%Z
          | None => false
          end then true
  else false.

(** One turn of the loop of [_process_calendar], on its state: [groups]
    and [total_seconds]. *)
Definition step (start_date end_date : option instant) (allday : bool)
           (regexes : list rule) (st : dict * Z) (event : Event)
  : dict * Z :=
  let (groups, total_seconds) := st in
  if skipped start_date end_date allday event then st
  else
    let total_seconds := (total_seconds + duration event)%Z in
    let event_name := _group (name event) regexes in
    (add groups event_name (duration event), total_seconds).

(** The loop of [_process_calendar], from [groups] empty and
    [total_seconds] zero, over the events in the order of the calendar;
    it returns the two at the end of the loop. *)
Definition aggregate (calendar : list Event)
           (start_date end_date : option instant) (allday : bool)
           (regexes : list rule) : dict * Z :=
  fold_left (step start_date end_date allday regexes) calendar ([], 0%Z).

(** The lines of the last loop of [_process_calendar]. *)
Definition report (groups : dict) : list line :=
  map (fun item => Hours (fst item) (_total_hours (snd item)))
      (sorted_desc groups).

Fixpoint print_all (lines : list line) : M unit :=
  match lines with
  | [] => ret tt
  | l :: rest => print l ;; print_all rest
  end.

(** [_process_calendar]; [calendar] stands for the events of
    [ics.Calendar(calendar_file)], of a file that [ics] reads and whose
    events all have a name: what the script does when [ics] raises on
    the file, or when [Pattern.match] raises on the name [None] of an
    event without a summary, both behind [_parse_regexes], is not
    described here. *)
Definition _process_calendar (calendar : list Event)
           (start_date end_date : option instant) (allday : bool)
           (grouping_regex_strs : list string) : M unit :=
  print (Processing start_date end_date) ;;
  regexes <- _parse_regexes grouping_regex_strs ;;
  let (groups, total_seconds) :=
    aggregate calendar start_date end_date allday regexes in
  print_all (report groups).

End WithEngine.

(** [_valid_date], over the date library: [arrow_get s] is what
    [arrow.get(s)] returns or raises. *)
Definition _valid_date (arrow_get : string -> exn + instant) (s : string)
  : exn + instant :=
  match arrow_get s with
  | inl TypeError =>
      inl (ArgumentTypeError ("Not a valid date: '" ++ s ++ "'."))
  | r => r
  end.

(** [bool(s)] on a string. *)
Definition bool_of_str (s : string) : bool :=
  match s with
  | EmptyString => false
  | String _ _ => true
  end.

(** The value of [args.allday]: [--allday] is declared with [type=bool]
    and [default=False]; the argument is [None] when the option is not
    on the command line. *)
Definition allday_value (arg : option string) : bool :=
  match arg with
  | Some s => bool_of_str s
  | None => false
  end.

(** The command line as argparse reads it: the options with the strings
    given to them, in the order of [sys.argv], and the positional
    arguments.  How argparse splits [sys.argv] into these is its own;
    a command line that it refuses while splitting (an unknown option, an
    option without its string) is not of this type. *)
Inductive optional : Type :=
| opt_startdate (arg_string : string)   (** [-s], [--startdate] *)
| opt_enddate (arg_string : string)     (** [-e], [--enddate] *)
| opt_calendar (arg_string : string)    (** [-c], [--calendar] *)
| opt_allday (arg_string : string)      (** [--allday] *).

Record Argv : Type :=
  { optionals : list optional;
    positionals : list string }.

(** The namespace that [parse_args] fills: [args.startdate] and so on.
    [calendar] is the open file, given by the events that [ics.Calendar]
    reads from it. *)
Record Namespace : Type :=
  { startdate : option instant;
    enddate : option instant;
    calendar : option (list Event);
    allday : bool;
    regexes : list string }.

(** The namespace before the command line is read: the defaults of
    [add_argument]. *)
Definition defaults : Namespace :=
  {| startdate := None;
     enddate := None;
     calendar := None;
     allday := allday_value None;
     regexes := [] |}.

(** The libraries behind the command line. *)
Record Libraries : Type :=
  { (** [arrow.get] on a string *)
    arrow_get : string -> exn + instant;
    (** whether [arrow.parser.ParserError] derives from [ValueError],
        as it does in the later versions of arrow; in the earlier ones
        it derives from [RuntimeError] *)
    ParserError_is_ValueError : bool;
    (** [argparse.FileType('r', ...)] on the string given to
        [--calendar]: the file, or the exception of a file that cannot
        be opened *)
    FileType : string -> exn + list Event }.

Section WithLibraries.
Variable lib : Libraries.

(** [isinstance(e, (TypeError, ValueError))] *)
Definition is_TypeError_or_ValueError (e : exn) : bool :=
  match e with
  | TypeError | ValueError => true
  | ParserError => ParserError_is_ValueError lib
  | _ => false
  end.

(** [_get_value] of argparse applies the [type] of an argument to its
    string.  An [ArgumentTypeError], a [TypeError] or a [ValueError] of
    the conversion becomes an error of the argument: [parser.error]
    writes the usage and the message and leaves with status 2.  Any other
    exception goes through. *)
Definition _get_value {A} (argument type_name : string)
           (type_func : string -> exn + A) (arg_string : string)
  : exn + A :=
  match type_func arg_string with
  | inl (ArgumentTypeError msg) =>
      inl (SystemExit 2 (argument_error argument msg))
  | inl e =>
      if is_TypeError_or_ValueError e
      then inl (SystemExit 2 (invalid_value argument type_name arg_string))
      else inl e
  | inr a => inr a
  end.

(** An option is converted and stored when argparse meets it. *)
Definition take_action (namespace : Namespace) (o : optional)
  : exn + Namespace :=
  match o with
  | opt_startdate s =>
      match _get_value "-s/--startdate" "_valid_date"
                       (_valid_date (arrow_get lib)) s with
      | inl e => inl e
      | inr d =>
          inr {| startdate := Some d;
                 enddate := enddate namespace;
                 calendar := calendar namespace;
                 allday := allday namespace;
                 regexes := regexes namespace |}
      end
  | opt_enddate s =>
      match _get_value "-e/--enddate" "_valid_date"
                       (_valid_date (arrow_get lib)) s with
      | inl e => inl e
      | inr d =>
          inr {| startdate := startdate namespace;
                 enddate := Some d;
                 calendar := calendar namespace;
                 allday := allday namespace;
                 regexes := regexes namespace |}
      end
  | opt_calendar s =>
      match _get_value "-c/--calendar"
                       "FileType('r', encoding='iso-8859-1')"
                       (FileType lib) s with
      | inl e => inl e
      | inr f =>
          inr {| startdate := startdate namespace;
                 enddate := enddate namespace;
                 calendar := Some f;
                 allday := allday namespace;
                 regexes := regexes namespace |}
      end
  | opt_allday s =>
      inr {| startdate := startdate namespace;
             enddate := enddate namespace;
             calendar := calendar namespace;
             allday := allday_value (Some s);
             regexes := regexes namespace |}
  end.

(** The options in the order of the command line; the first exception
    ends the reading. *)
Fixpoint consume_optionals (namespace : Namespace)
         (options : list optional) : exn + Namespace :=
  match options with
  | [] => inr namespace
  | o :: rest =>
      match take_action namespace o with
      | inl e => inl e
      | inr namespace' => consume_optionals namespace' rest
      end
  end.

(** [parser.parse_args()]: the options, the positional arguments, which
    are kept as they are, and at the end the test that [--calendar],
    which is [required], has been given. *)
Definition parse_args (argv : Argv) : exn + Namespace :=
  match consume_optionals defaults (optionals argv) with
  | inl e => inl e
  | inr namespace =>
      match calendar namespace with
      | None => inl (SystemExit 2 (required_arguments "-c/--calendar"))
      | Some _ =>
          inr {| startdate := startdate namespace;
                 enddate := enddate namespace;
                 calendar := calendar namespace;
                 allday := allday namespace;
                 regexes := positionals argv |}
      end
  end.

(** [main].  An exception of [parse_args] ends the run before
    [_process_calendar] is called.  [args.calendar] is a file behind
    [parse_args]; of no file, [ics.Calendar] would make a calendar
    without events. *)
Definition main {engine : Re} (argv : Argv) : M unit :=
  match parse_args argv with
  | inl e => raise e
  | inr args =>
      _process_calendar
        (match calendar args with Some events => events | None => [] end)
        (startdate args) (enddate args) (allday args) (regexes args)
  end.

End WithLibraries.

End Analyze.

(** ** A small regular-expression engine

    The part of Python's [re] that the examples need: a pattern is a
    sequence of items, an item is an ordinary character or [.], possibly
    followed by one [*].  [.] matches every character but a line feed.
    [Pattern.match] looks for a match that begins at the start of the
    string and may end anywhere. *)

Module MiniRe.
Import Text.

Inductive atom : Type :=
| Chr (c : ascii)
| Dot.

Definition item : Type := (atom * bool)%type.

(** The characters with a special meaning in a pattern. *)
Definition special (c : ascii) : bool :=
  existsb (Ascii.eqb c)
          (list_ascii_of_string "\^$.|?*+()[]{}").

Inductive parsed : Type :=
| Items (p : list item)
| Error          (** [re.compile] raises [re.error] *)
| NotModelled    (** the pattern uses more of [re] than this engine has *).

Definition cons_item (a : atom) (star : bool) (r : parsed) : parsed :=
  match r with
  | Items p => Items ((a, star) :: p)
  | other => other
  end.

(** A [*] with nothing before it, or behind another [*], is the error
    "nothing to repeat" or "multiple repeat" of [re]. *)
Fixpoint parse_pattern (s : string) : parsed :=
  match s with
  | EmptyString => Items []
  | String c r =>
      if Ascii.eqb c "*" then Error
      else if special c && negb (Ascii.eqb c ".") then NotModelled
      else
        let a := if Ascii.eqb c "." then Dot else Chr c in
        match r with
        | String "*"%char r' => cons_item a true (parse_pattern r')
        | _ => cons_item a false (parse_pattern r)
        end
  end.

Definition atom_matches (a : atom) (c : ascii) : bool :=
  match a with
  | Chr d => Ascii.eqb c d
  | Dot => negb (Ascii.eqb c LF)
  end.

Fixpoint match_here (p : list item) (s : string) : bool :=
  match p with
  | [] => true
  | (a, false) :: rest =>
      match s with
      | String c r => atom_matches a c && match_here rest r
      | EmptyString => false
      end
  | (a, true) :: rest =>
      (fix star (s : string) : bool :=
         match_here rest s ||
         match s with
         | String c r => atom_matches a c && star r
         | EmptyString => false
         end) s
  end.

(** The engine.  A pattern that is not modelled is refused like one in
    error; no example uses such a pattern. *)
#[export] Instance engine : Re :=
  { Pattern := list item;
    compile := fun s =>
      match parse_pattern s with
      | Items p => Some p
      | Error | NotModelled => None
      end;
    matches := match_here }.

End MiniRe.

(** ** A small date library

    For the examples: [get] reads a date written
    [YYYY-MM-DD] and returns its first instant, in seconds since
    1970-01-01; like [arrow.get], it raises [ParserError] on a string of
    another form and [ValueError] on a month or a day that does not
    exist. *)

Module MiniArrow.
Import Py.
Local Open Scope Z_scope.

Definition digit (c : ascii) : option Z :=
  let n := Z.of_nat (nat_of_ascii c) in
  if (48 <=? n) && (n <=? 57) then Some (n - 48) else None.

Fixpoint number (acc : Z) (s : string) : option Z :=
  match s with
  | String c r =>
      match digit c with
      | Some d => number (10 * acc + d) r
      | None => None
      end
  | EmptyString => Some acc
  end.

Definition leap (y : Z) : bool :=
  ((y mod 4 =? 0) && negb (y mod 100 =? 0)) || (y mod 400 =? 0).

Definition days_in_month (y m : Z) : Z :=
  if m =? 2 then (if leap y then 29 else 28)
  else if (m =? 4) || (m =? 6) || (m =? 9) || (m =? 11) then 30
  else 31.

(** The days from 1970-01-01 to the day [d] of the month [m] of the
    year [y]. *)
Definition days_from_civil (y m d : Z) : Z :=
  let y := if m <=? 2 then y - 1 else y in
  let era := y / 400 in
  let yoe := y - era * 400 in
  let doy := (153 * (if 2 <? m then m - 3 else m + 9) + 2) / 5 + d - 1 in
  let doe := yoe * 365 + yoe / 4 - yoe / 100 + doy in
  era * 146097 + doe - 719468.

Definition get (s : string) : exn + instant :=
  match number 0 (substring 0 4 s), number 0 (substring 5 2 s),
        number 0 (substring 8 2 s) with
  | Some y, Some m, Some d =>
      if negb ((String.length s =? 10)%nat
               && String.eqb (substring 4 1 s) "-"
               && String.eqb (substring 7 1 s) "-")
      then inl ParserError
      else if (1 <=? y) && (1 <=? m) && (m <=? 12)
              && (1 <=? d) && (d <=? days_in_month y m)
      then inr (86400 * days_from_civil y m d)
      else inl ValueError
  | _, _, _ => inl ParserError
  end.

End MiniArrow.

Import Text Pyparsing Rules Py Analyze.

(** ** The data of the examples *)

Module Samples.
Import MiniRe.
Local Open Scope Z_scope.

Definition timed (name : string) (begin duration : Z) : Event :=
  {| name := name; begin := begin; end_ := begin + duration;
     all_day := false; duration := duration |}.

Definition meetings : list Event :=
  [timed "Meeting A" 0 3600; timed "Meeting B" 7200 1800;
   timed "Lunch" 10800 900].

(** The files of the examples: [meetings.ics] holds [meetings], no other
    file can be opened. *)
Definition files (path : string) : exn + list Event :=
  if String.eqb path "meetings.ics" then inr meetings
  else inl (ArgumentTypeError
              ("can't open '" ++ path
               ++ "': [Errno 2] No such file or directory: '" ++ path
               ++ "'")).

(** The libraries of the examples, with the [ParserError] of an arrow
    of the time of the script and with that of a later one. *)
Definition old_arrow : Libraries :=
  {| arrow_get := MiniArrow.get;
     ParserError_is_ValueError := false;
     FileType := files |}.

Definition new_arrow : Libraries :=
  {| arrow_get := MiniArrow.get;
     ParserError_is_ValueError := true;
     FileType := files |}.

(** The rules that [_parse_regexes] returns, the empty list when it
    raises. *)
Definition rules_of (regexes : list string) : list rule :=
  match outcome (_parse_regexes regexes) with
  | inr rules => rules
  | inl _ => []
  end.

End Samples.

(** ** The words of the statements *)

(** The sum of the durations held by the groups. *)
Definition sum (l : list Z) : Z := fold_right Z.add 0%Z l.

(** The events that the loop of [_process_calendar] does not skip. *)
Definition included (start_date end_date : option instant) (allday : bool)
           (event : Event) : bool :=
  negb (skipped start_date end_date allday event).

(** The order of the report: the first item has at least the seconds of
    the second. *)
Definition not_less (a b : string * Z) : Prop := (snd b <= snd a)%Z.

(** No rule of [rules] matches [s]. *)
Definition none_matches {engine : Re} (s : string) (rules : list rule)
  : Prop :=
  Forall (fun r => matches (fst r) s = false) rules.

Definition is_hours (l : line) : bool :=
  match l with
  | Hours _ _ => true
  | _ => false
  end.

(** The line that announces the rule string [regex]. *)
Definition announces (regex : string) (l : line) : Prop :=
  exists regex_str replace_str,
    parse_rule regex = Some (regex_str, replace_str)
    /\ l = Replacing regex_str replace_str.

(** The rule that [_parse_regexes] makes of the rule string [regex]. *)
Definition compiles_to {engine : Re} (regex : string) (r : rule) : Prop :=
  exists regex_str,
    parse_rule regex = Some (regex_str, snd r)
    /\ compile regex_str = Some (fst r).

Definition not_white (c : ascii) : bool := negb (white c).

Definition not_tab (c : ascii) : bool := negb (Ascii.eqb c TAB).

(** The five flags of the grammar. *)
Definition flag_char (c : ascii) : bool :=
  Ascii.eqb c "i" || Ascii.eqb c "L" || Ascii.eqb c "s" ||
  Ascii.eqb c "u" || Ascii.eqb c "x".

(** The element that [ZeroOrMore] repeats in [regexBNF]. *)
Definition flag : ParserElement :=
  (Literal "i" ^ Literal "L" ^ Literal "s" ^ Literal "u" ^ Literal "x")%pp.

(** The tokens of a run of flags: one token per character. *)
Fixpoint chars (s : string) : list string :=
  match s with
  | String c r => String c "" :: chars r
  | EmptyString => []
  end.

(** A text that starts with a character that is not white space. *)
Definition starts_black (w : string) : bool :=
  match w with
  | String c _ => negb (white c)
  | EmptyString => false
  end.

(** A pattern or a replacement: one or more characters of the set given
    to [pp.Word]. *)
Definition word (w : string) : Prop :=
  w <> "" /\ all_chars pattern_char w = true.

(** The number of [/] in a text. *)
Fixpoint count_slash (s : string) : nat :=
  match s with
  | String c r => ((if Ascii.eqb c SLASH then 1 else 0) + count_slash r)%nat
  | EmptyString => 0
  end.

(** The pattern of the small engine that is the plain text [s]. *)
Fixpoint literal (s : string) : list MiniRe.item :=
  match s with
  | String c r => (MiniRe.Chr c, false) :: literal r
  | EmptyString => []
  end.

(** A character without a special meaning in a pattern. *)
Definition plain (c : ascii) : bool := negb (MiniRe.special c).

(** The float quotient of [seconds] by 3600 that the kernel computes is
    the value of [_total_hours]. *)
Definition same_quotient (seconds : Z) : bool :=
  match Binary64.quotient seconds 3600 with
  | Some q => Qeq_bool q (_total_hours seconds)
  | None => false
  end.

(** ** More words, for the properties of the whole script *)

(** The events that are counted in the group [key]. *)
Definition counted_in {engine : Re} (start_date end_date : option instant)
           (allday : bool) (regexes : list rule) (key : string)
           (event : Event) : bool :=
  included start_date end_date allday event
  && String.eqb (_group (name event) regexes) key.

(** The names of [l], each at the place where it is seen first. *)
Fixpoint first_seen (l : list string) : list string :=
  match l with
  | [] => []
  | x :: rest =>
      x :: filter (fun y => negb (String.eqb x y)) (first_seen rest)
  end.

(** The hours that a line of the report shows. *)
Definition line_hours (l : line) : Q :=
  match l with
  | Hours _ hours => hours
  | _ => 0%Q
  end.

(** The instant [d'] bounds a range at least as wide as [d] does, from
    below; no boundary is the widest. *)
Definition start_not_after (d' d : option instant) : Prop :=
  match d', d with
  | None, _ => True
  | Some a, Some b => (a <= b)%Z
  | Some _, None => False
  end.

Definition end_not_before (d' d : option instant) : Prop :=
  match d', d with
  | None, _ => True
  | Some a, Some b => (b <= a)%Z
  | Some _, None => False
  end.

(** The name [key] is among [l]. *)
Definition seen (key : string) (l : list string) : bool :=
  existsb (String.eqb key) l.

(** The items with [seconds] seconds. *)
Definition tied (seconds : Z) (item : string * Z) : bool :=
  (snd item =? seconds)%Z.

(** The rule string [regex] passes the grammar and its regex compiles. *)
Definition usable {engine : Re} (regex : string) : Prop :=
  exists regex_str replace_str,
    parse_rule regex = Some (regex_str, replace_str)
    /\ compile regex_str <> None.

(** Some rule of [rules] matches [s]. *)
Definition any_matches {engine : Re} (s : string) (rules : list rule)
  : bool :=
  existsb (fun r => matches (fst r) s) rules.

(** The string of an option of each kind. *)
Definition startdate_string (o : optional) : option string :=
  match o with opt_startdate s => Some s | _ => None end.

Definition enddate_string (o : optional) : option string :=
  match o with opt_enddate s => Some s | _ => None end.

Definition calendar_string (o : optional) : option string :=
  match o with opt_calendar s => Some s | _ => None end.

Definition allday_string (o : optional) : option string :=
  match o with opt_allday s => Some s | _ => None end.

(** The string given to the last option of a kind on the command line. *)
Fixpoint last_string (pick : optional -> option string)
         (options : list optional) : option string :=
  match options with
  | [] => None
  | o :: rest =>
      match last_string pick rest with
      | Some s => Some s
      | None => pick o
      end
  end.

(** What argparse makes of a date option: nothing when the option is
    absent, else the instant that [_valid_date] returns. *)
Definition converts (arrow_get : string -> exn + instant)
           (arg : option string) (d : option instant) : Prop :=
  match arg with
  | Some s => exists i, _valid_date arrow_get s = inr i /\ d = Some i
  | None => d = None
  end.

(** The conversion of the string of the option [o] raises nothing. *)
Definition accepted (lib : Libraries) (o : optional) : Prop :=
  exists namespace, take_action lib defaults o = inr namespace.

(** A character of the text behind the third [/]: a flag or white space. *)
Definition flag_or_white (c : ascii) : bool := flag_char c || white c.

(** The characters of [s] that satisfy [ok], in their order. *)
Fixpoint keep (ok : ascii -> bool) (s : string) : string :=
  match s with
  | String c r => if ok c then String c (keep ok r) else keep ok r
  | EmptyString => ""
  end.

(** A pattern or a replacement as the grammar returns it: characters of
    the set given to [pp.Word], the first of them not white space. *)
Definition part (w : string) : Prop :=
  starts_black w = true /\ all_chars pattern_char w = true.

(** * Properties *)

(** ** The accumulator *)

Section Dict.
Local Open Scope Z_scope.

Lemma get_add_same (groups : dict) (key : string) (seconds : Z) :
  get (add groups key seconds) key = get groups key + seconds.
Proof.
  induction groups as [|[k v] rest IH]; simpl.
  - now rewrite String.eqb_refl.
  - destruct (String.eqb k key) eqn:E; simpl; rewrite E; auto.
Qed.

Lemma get_add_other (groups : dict) (key other : string) (seconds : Z) :
  other <> key -> get (add groups key seconds) other = get groups other.
Proof.
  intros Hne.
  induction groups as [|[k v] rest IH]; simpl.
  - destruct (String.eqb_spec key other); congruence.
  - destruct (String.eqb_spec k key) as [->|Hk]; simpl.
    + destruct (String.eqb_spec key other); congruence.
    + now rewrite IH.
Qed.

Lemma sum_values_add (groups : dict) (key : string) (seconds : Z) :
  sum (values (add groups key seconds)) = sum (values groups) + seconds.
Proof.
  unfold values, sum.
  induction groups as [|[k v] rest IH]; simpl.
  - lia.
  - destruct (String.eqb k key); simpl; lia.
Qed.

Lemma keys_add (groups : dict) (key other : string) (seconds : Z) :
  In other (keys (add groups key seconds)) <->
  other = key \/ In other (keys groups).
Proof.
  unfold keys.
  induction groups as [|[k v] rest IH]; simpl.
  - intuition congruence.
  - destruct (String.eqb_spec k key) as [->|Hk]; simpl.
    + intuition congruence.
    + rewrite IH. intuition congruence.
Qed.


End Dict.

(** ** The filters *)

Section Filters.
Local Open Scope Z_scope.

Lemma skipped_true_iff (start_date end_date : option instant)
      (allday : bool) (event : Event) :
  skipped start_date end_date allday event = true <->
  (allday = false /\ all_day event = true)
  \/ (exists d, start_date = Some d /\ begin event < d)
  \/ (exists d, end_date = Some d /\ end_ event > d).
Proof.
  unfold skipped.
  destruct allday, (all_day event); simpl;
    destruct start_date as [s|], end_date as [e|]; simpl;
    try destruct (Z.ltb_spec (begin event) s);
    try destruct (Z.gtb_spec (end_ event) e);
    split; intros Hyp; try discriminate; try reflexivity; auto;
    try (right; left; eexists; split; [reflexivity | lia]);
    try (right; right; eexists; split; [reflexivity | lia]);
    destruct Hyp as [[? ?] | [[d [Hd ?]] | [d [Hd ?]]]];
    try discriminate; inversion Hd; subst; lia.
Qed.

(** C1, as amended.  An event is skipped exactly when it is an all-day
    event and all-day events are not asked for, or its start is strictly
    before the start boundary, or its end is strictly after the end
    boundary.  So an event that starts at the start boundary is admitted,
    and so is one that ends at the end boundary. *)
Theorem date_filter_bounds (start_date end_date : option instant)
        (allday : bool) (event : Event) :
  (skipped start_date end_date allday event = true <->
     (allday = false /\ all_day event = true)
     \/ (exists d, start_date = Some d /\ begin event < d)
     \/ (exists d, end_date = Some d /\ end_ event > d))
  /\ skipped (Some (begin event)) None true event = false
  /\ skipped None (Some (end_ event)) true event = false
  /\ skipped (Some (begin event)) (Some (end_ event)) true event = false.
Proof.
  split; [apply skipped_true_iff|].
  unfold skipped; simpl.
  rewrite Z.ltb_irrefl.
  replace (end_ event >? end_ event) with false
    by (symmetry; rewrite Z.gtb_ltb; apply Z.ltb_irrefl).
  repeat split.
Qed.

(** C1, as stated, fails: with the end boundary at 7200, an event that
    ends at 7200 is not skipped. *)
Lemma end_boundary_event_is_admitted :
  let event := {| name := "Lunch"; begin := 3600; end_ := 7200;
                  all_day := false; duration := 3600 |} in
  end_ event = 7200 /\ skipped None (Some 7200) false event = false.
Proof. split; reflexivity. Qed.


End Filters.

(** ** The stable sort of the report *)

Section Sorting.
Local Open Scope Z_scope.



Lemma insert_desc_HdRel (x item : string * Z) (l : list (string * Z)) :
  not_less x item -> HdRel not_less x l ->
  HdRel not_less x (insert_desc item l).
Proof.
  intros Hx Hl. destruct l as [|y ys]; simpl.
  - now constructor.
  - destruct (snd y <=? snd item); constructor; auto.
    now inversion Hl.
Qed.

Lemma insert_desc_sorted (item : string * Z) (l : list (string * Z)) :
  Sorted not_less l -> Sorted not_less (insert_desc item l).
Proof.
  induction l as [|y ys IH]; simpl; intros Hs.
  - repeat constructor.
  - destruct (Z.leb_spec (snd y) (snd item)) as [Hle|Hlt].
    + constructor; [assumption | now constructor].
    + inversion Hs as [|? ? Hys Hhd]; subst.
      constructor; [now apply IH|].
      apply insert_desc_HdRel; [unfold not_less; lia | assumption].
Qed.

Lemma sorted_desc_sorted (items : list (string * Z)) :
  StronglySorted not_less (sorted_desc items).
Proof.
  apply Sorted_StronglySorted.
  - intros a b c Hab Hbc. unfold not_less in *. lia.
  - induction items as [|x xs IH]; simpl.
    + constructor.
    + now apply insert_desc_sorted.
Qed.

(** The sort is stable: where all the seconds are equal, the order of
    first insertion is kept. *)
Lemma sorted_desc_stable_on_ties (items : list (string * Z)) (seconds : Z) :
  Forall (fun item => snd item = seconds) items ->
  sorted_desc items = items.
Proof.
  induction 1 as [|x xs Hx Hxs IH]; simpl; [reflexivity|].
  rewrite IH. destruct xs as [|y ys]; simpl; [reflexivity|].
  inversion Hxs; subst.
  replace (snd y <=? snd x) with true; [reflexivity|].
  symmetry. apply Z.leb_le. lia.
Qed.

End Sorting.

(** ** The hours *)

Section Rounding.
Import Binary64.
Local Open Scope Q_scope.

Lemma floor_bounds (x : Q) :
  inject_Z (Qfloor x) <= x /\ x < inject_Z (Qfloor x) + 1.
Proof.
  split; [apply Qfloor_le|].
  pose proof (Qlt_floor x) as H. now rewrite inject_Z_plus in H.
Qed.

Lemma rne_cases (x : Q) :
  let f := Qfloor x in
  (x - inject_Z f < 1 # 2 /\ rne x = f)
  \/ (1 # 2 < x - inject_Z f /\ rne x = (f + 1)%Z)
  \/ (x - inject_Z f == 1 # 2
      /\ rne x = if Z.even f then f else (f + 1)%Z).
Proof.
  intros f. unfold rne. fold f.
  destruct (Qcompare (x - inject_Z f) (1 # 2)) eqn:E.
  - right; right. split; [now apply Qeq_alt|reflexivity].
  - left. split; [now apply Qlt_alt|reflexivity].
  - right; left. split; [now apply Qgt_alt|reflexivity].
Qed.

Lemma rne_near (x : Q) :
  inject_Z (rne x) - (1 # 2) <= x /\ x <= inject_Z (rne x) + (1 # 2).
Proof.
  destruct (floor_bounds x) as [Hlo Hhi].
  destruct (rne_cases x) as [[H ->]|[[H ->]|[H ->]]];
    try (destruct (Z.even (Qfloor x))); rewrite ?inject_Z_plus;
    change (inject_Z 1) with 1; split; lra.
Qed.

Lemma rne_tie_even (x : Q) :
  x == inject_Z (rne x) + (1 # 2) \/ x == inject_Z (rne x) - (1 # 2) ->
  Z.even (rne x) = true.
Proof.
  destruct (floor_bounds x) as [Hlo Hhi].
  destruct (rne_cases x) as [[H Hr]|[[H Hr]|[H Hr]]]; rewrite Hr.
  - intros [E|E]; lra.
  - rewrite inject_Z_plus. change (inject_Z 1) with 1. intros [E|E]; lra.
  - destruct (Z.even (Qfloor x)) eqn:Ev.
    + intros _. exact Ev.
    + intros _. rewrite Z.even_add, Ev. reflexivity.
Qed.

Lemma rne_mono (x y : Q) : x <= y -> (rne x <= rne y)%Z.
Proof.
  intros Hxy.
  destruct (Z.le_gt_cases (rne x) (rne y)) as [H|H]; [exact H|exfalso].
  destruct (rne_near x) as [Hx _]. destruct (rne_near y) as [_ Hy].
  assert (Hz : (rne y + 1 <= rne x)%Z) by lia.
  assert (Hq : inject_Z (rne y) + 1 <= inject_Z (rne x)).
  { rewrite Zle_Qle, inject_Z_plus in Hz. exact Hz. }
  assert (Ex : x == inject_Z (rne x) - (1 # 2)) by lra.
  assert (Ey : y == inject_Z (rne y) + (1 # 2)) by lra.
  assert (Ez : (rne x <= rne y + 1)%Z).
  { rewrite Zle_Qle, inject_Z_plus. change (inject_Z 1) with 1. lra. }
  pose proof (rne_tie_even x (or_intror Ex)) as Evx.
  pose proof (rne_tie_even y (or_introl Ey)) as Evy.
  replace (rne x) with (rne y + 1)%Z in Evx by lia.
  rewrite Z.even_add, Evy in Evx. discriminate.
Qed.

Lemma rne_Z (z : Z) : rne (inject_Z z) = z.
Proof.
  destruct (rne_near (inject_Z z)) as [Hlo Hhi].
  destruct (Z.lt_trichotomy (rne (inject_Z z)) z) as [H|[H|H]];
    [exfalso|exact H|exfalso].
  - assert (Hz : (rne (inject_Z z) + 1 <= z)%Z) by lia.
    rewrite Zle_Qle, inject_Z_plus in Hz. change (inject_Z 1) with 1 in Hz.
    lra.
  - assert (Hz : (z + 1 <= rne (inject_Z z))%Z) by lia.
    rewrite Zle_Qle, inject_Z_plus in Hz. change (inject_Z 1) with 1 in Hz.
    lra.
Qed.

Lemma pow2_pos (e : Z) : 0 < 2 ^ e.
Proof. apply Qpower_0_lt. reflexivity. Qed.

Lemma pow2_le (n m : Z) : (n <= m)%Z -> 2 ^ n <= 2 ^ m.
Proof. intros H. apply Qpower_le_compat_l; [exact H|discriminate]. Qed.

Lemma pow2_Z (n : Z) : (0 <= n)%Z -> inject_Z (2 ^ n) == 2 ^ n.
Proof. intros H. now rewrite Zpower_Qpower. Qed.

Lemma pow2_add (n m : Z) : 2 ^ (n + m) == 2 ^ n * 2 ^ m.
Proof. apply Qpower_plus. discriminate. Qed.

Lemma pow2_split (a b : Z) : 2 ^ a == 2 ^ b * 2 ^ (a - b).
Proof. rewrite <- pow2_add. now replace (b + (a - b))%Z with a by lia. Qed.

Lemma exponent_spec (x : Q) :
  0 < x -> 2 ^ exponent x <= x /\ x < 2 ^ (exponent x + 1).
Proof.
  intros Hx. unfold exponent.
  destruct (Qle_bool 1 x) eqn:E.
  - apply Qle_bool_iff in E.
    destruct (floor_bounds x) as [Hlo Hhi].
    assert (Hf : (1 <= Qfloor x)%Z).
    { change 1%Z with (Qfloor 1). now apply Qfloor_resp_le. }
    destruct (Z.log2_spec (Qfloor x)) as [H1 H2]; [lia|].
    fold (Z.succ (Z.log2 (Qfloor x))) . 
    split.
    + rewrite <- pow2_Z by apply Z.log2_nonneg.
      rewrite Zle_Qle in H1. lra.
    + rewrite <- pow2_Z by (apply Z.le_le_succ_r, Z.log2_nonneg).
      assert (H3 : (Qfloor x + 1 <= 2 ^ Z.succ (Z.log2 (Qfloor x)))%Z) by lia.
      rewrite Zle_Qle, inject_Z_plus in H3. change (inject_Z 1) with 1 in H3.
      lra.
  - assert (Hx1 : x < 1).
    { apply Qnot_le_lt. intros H. apply Qle_bool_iff in H. congruence. }
    set (y := / x). set (c := Qceiling y).
    assert (Hy : 0 < y) by now apply Qinv_lt_0_compat.
    assert (Hxy : x * y == 1).
    { apply Qmult_inv_r. intros H. rewrite H in Hx. discriminate. }
    assert (Hy1 : 1 < y).
    { apply Qnot_le_lt. intros H.
      assert (x * y <= x * 1) by (apply Qmult_le_l; assumption). lra. }
    pose proof (Qle_ceiling y) as Hc1. pose proof (Qceiling_lt y) as Hc2.
    fold c in Hc1, Hc2.
    assert (Hc : (1 < c)%Z).
    { rewrite Zlt_Qlt. change (inject_Z 1) with 1. lra. }
    destruct (Z.log2_up_spec c Hc) as [H1 H2].
    set (k := Z.log2_up c) in *.
    assert (Hk : (0 < k)%Z) by (apply Z.log2_up_pos; exact Hc).
    assert (Hupper : y <= 2 ^ k).
    { rewrite <- pow2_Z by lia. rewrite Zle_Qle in H2. lra. }
    assert (Hlower : 2 ^ (k - 1) < y).
    { rewrite <- pow2_Z by lia.
      assert (H3 : (2 ^ Z.pred k <= c - 1)%Z) by lia.
      replace (Z.pred k) with (k - 1)%Z in H3 by lia.
      rewrite Zle_Qle in H3. unfold Z.sub in H3 at 2.
      rewrite inject_Z_plus in H3. change (inject_Z (-1)) with (-1) in H3.
      unfold Z.sub in Hc2. rewrite inject_Z_plus in Hc2.
      change (inject_Z (-1)) with (-1) in Hc2. lra. }
    split.
    + rewrite Qpower_opp.
      apply Qle_shift_inv_r; [apply pow2_pos|].
      assert (x * y <= x * 2 ^ k) by (apply Qmult_le_l; assumption). lra.
    + replace (- k + 1)%Z with (- (k - 1))%Z by lia.
      rewrite Qpower_opp.
      apply Qlt_shift_inv_l; [apply pow2_pos|].
      assert (x * 2 ^ (k - 1) < x * y) by (apply Qmult_lt_l; assumption).
      lra.
Qed.

Lemma exponent_mono (x y : Q) :
  0 < x -> x <= y -> (exponent x <= exponent y)%Z.
Proof.
  intros Hx Hxy.
  destruct (exponent_spec x Hx) as [Hx1 _].
  destruct (exponent_spec y) as [_ Hy2]; [lra|].
  destruct (Z.le_gt_cases (exponent x) (exponent y)) as [H|H];
    [exact H|exfalso].
  assert (H2 : 2 ^ (exponent y + 1) <= 2 ^ exponent x)
    by (apply pow2_le; lia).
  lra.
Qed.

Lemma round_pos_bounds (x : Q) :
  0 < x ->
  2 ^ exponent x <= round_pos x /\ round_pos x <= 2 ^ (exponent x + 1).
Proof.
  intros Hx. destruct (exponent_spec x Hx) as [H1 H2].
  unfold round_pos. set (e := exponent x) in *.
  pose proof (pow2_pos (52 - e)) as Hp. pose proof (pow2_pos (e - 52)) as Hq.
  assert (Hlo : (2 ^ 52 <= rne (x * 2 ^ (52 - e)))%Z).
  { rewrite <- (rne_Z (2 ^ 52)) at 1. apply rne_mono.
    rewrite pow2_Z by lia. rewrite (pow2_split 52 e).
    apply Qmult_le_compat_r; [exact H1|now apply Qlt_le_weak]. }
  assert (Hhi : (rne (x * 2 ^ (52 - e)) <= 2 ^ 53)%Z).
  { rewrite <- (rne_Z (2 ^ 53)). apply rne_mono.
    rewrite pow2_Z by lia. rewrite (pow2_split 53 (e + 1)).
    replace (53 - (e + 1))%Z with (52 - e)%Z by lia.
    apply Qmult_le_compat_r; [now apply Qlt_le_weak|now apply Qlt_le_weak]. }
  rewrite Zle_Qle in Hlo, Hhi. rewrite pow2_Z in Hlo, Hhi by lia.
  split.
  - rewrite (pow2_split e 52).
    apply Qmult_le_compat_r; [exact Hlo|now apply Qlt_le_weak].
  - rewrite (pow2_split (e + 1) 53).
    replace (e + 1 - 53)%Z with (e - 52)%Z by lia.
    apply Qmult_le_compat_r; [exact Hhi|now apply Qlt_le_weak].
Qed.

(** The float of [round_pos]: 53 bits behind the exponent of [x], at
    most half a unit of the last bit away from [x]. *)
Lemma round_pos_near (x : Q) :
  0 < x ->
  let e := exponent x in
  exists m : Z,
    (2 ^ 52 <= m <= 2 ^ 53)%Z
    /\ round_pos x = inject_Z m * 2 ^ (e - 52)
    /\ round_pos x - 2 ^ (e - 53) <= x
    /\ x <= round_pos x + 2 ^ (e - 53).
Proof.
  intros Hx e. destruct (exponent_spec x Hx) as [H1 H2]. fold e in H1, H2.
  exists (rne (x * 2 ^ (52 - e))).
  pose proof (pow2_pos (52 - e)) as Hp. pose proof (pow2_pos (e - 52)) as Hq.
  assert (Hone : 2 ^ (52 - e) * 2 ^ (e - 52) == 1).
  { rewrite <- pow2_add. now replace (52 - e + (e - 52))%Z with 0%Z by lia. }
  assert (Hhalf : 2 ^ (e - 53) == (1 # 2) * 2 ^ (e - 52)).
  { rewrite (pow2_split (e - 52) (e - 53)).
    replace (e - 52 - (e - 53))%Z with 1%Z by lia.
    change (2 ^ 1) with 2. field. }
  split.
  { split.
    - rewrite <- (rne_Z (2 ^ 52)) at 1. apply rne_mono.
      rewrite pow2_Z by lia. rewrite (pow2_split 52 e).
      apply Qmult_le_compat_r; [exact H1|now apply Qlt_le_weak].
    - rewrite <- (rne_Z (2 ^ 53)). apply rne_mono.
      rewrite pow2_Z by lia. rewrite (pow2_split 53 (e + 1)).
      replace (53 - (e + 1))%Z with (52 - e)%Z by lia.
      apply Qmult_le_compat_r; now apply Qlt_le_weak. }
  split; [reflexivity|].
  unfold round_pos. fold e.
  destruct (rne_near (x * 2 ^ (52 - e))) as [Hlo Hhi].
  set (m := inject_Z (rne (x * 2 ^ (52 - e)))) in *.
  assert (Ex : x == x * 2 ^ (52 - e) * 2 ^ (e - 52)).
  { rewrite <- Qmult_assoc, Hone. ring. }
  rewrite Hhalf. split.
  - rewrite Ex at 1.
    setoid_replace (m * 2 ^ (e - 52) - (1 # 2) * 2 ^ (e - 52))
      with ((m - (1 # 2)) * 2 ^ (e - 52)) by ring.
    apply Qmult_le_compat_r; [exact Hlo|now apply Qlt_le_weak].
  - rewrite Ex at 1.
    setoid_replace (m * 2 ^ (e - 52) + (1 # 2) * 2 ^ (e - 52))
      with ((m + (1 # 2)) * 2 ^ (e - 52)) by ring.
    apply Qmult_le_compat_r; [exact Hhi|now apply Qlt_le_weak].
Qed.

Lemma round_pos_mono (x y : Q) :
  0 < x -> x <= y -> round_pos x <= round_pos y.
Proof.
  intros Hx Hxy. assert (Hy : 0 < y) by lra.
  pose proof (exponent_mono x y Hx Hxy) as He.
  destruct (Z.eq_dec (exponent x) (exponent y)) as [E|E].
  - unfold round_pos. rewrite E. set (e := exponent y).
    apply Qmult_le_compat_r; [|apply Qlt_le_weak, pow2_pos].
    rewrite <- Zle_Qle. apply rne_mono.
    apply Qmult_le_compat_r; [exact Hxy|apply Qlt_le_weak, pow2_pos].
  - destruct (round_pos_bounds x Hx) as [_ H1].
    destruct (round_pos_bounds y Hy) as [H2 _].
    assert (H3 : 2 ^ (exponent x + 1) <= 2 ^ exponent y)
      by (apply pow2_le; lia).
    lra.
Qed.

Lemma round_pos_pos (x : Q) : 0 < x -> 0 < round_pos x.
Proof.
  intros Hx. destruct (round_pos_bounds x Hx) as [H _].
  pose proof (pow2_pos (exponent x)). lra.
Qed.

Lemma sign_cases (x : Q) :
  (x == 0 /\ Qnum x = 0%Z)
  \/ (0 < x /\ exists p, Qnum x = Zpos p)
  \/ (x < 0 /\ exists p, Qnum x = Zneg p).
Proof.
  destruct x as [[|p|p] d].
  - left. split; reflexivity.
  - right; left. split; [reflexivity|now exists p].
  - right; right. split; [reflexivity|now exists p].
Qed.

Lemma round_mono (x y : Q) : x <= y -> round x <= round y.
Proof.
  intros Hxy. unfold round.
  destruct (sign_cases x) as [[Hx ->]|[[Hx [p ->]]|[Hx [p ->]]]];
    destruct (sign_cases y) as [[Hy ->]|[[Hy [q ->]]|[Hy [q ->]]]];
    try lra.
  - pose proof (round_pos_pos y Hy). lra.
  - now apply round_pos_mono.
  - assert (H : 0 < round_pos (- x)) by (apply round_pos_pos; lra). lra.
  - assert (H : 0 < round_pos (- x)) by (apply round_pos_pos; lra).
    pose proof (round_pos_pos y Hy). lra.
  - assert (H : round_pos (- y) <= round_pos (- x))
      by (apply round_pos_mono; lra).
    lra.
Qed.

(** The hours grow with the seconds. *)
Lemma _total_hours_le (a b : Z) :
  (a <= b)%Z -> _total_hours a <= _total_hours b.
Proof.
  intros H. unfold _total_hours. apply round_mono.
  rewrite Zle_Qle in H. unfold Qdiv.
  apply Qmult_le_compat_r; [exact H|discriminate].
Qed.

(** The quotient is the one that the processor computes: on the totals
    of the first six thousand seconds, on some around a day, a year and
    a thousand years, and on the last below [2 ^ 53]. *)
Lemma _total_hours_is_the_float_quotient :
  forallb same_quotient
          (map Z.of_nat (seq 0 (Z.to_nat 6000))
           ++ [86399; 86400; 86401; 31535999; 31536000; 31557600;
               31557600000; 2 ^ 40 + 1; 2 ^ 52 + 1; 2 ^ 53 - 1]%Z)
  = true.
Proof. vm_compute. reflexivity. Qed.

(** The hours of a float are not always the exact quotient: 57 seconds
    are 0.015833333333333335 hours, which make a little more than 57
    seconds. *)
Lemma _total_hours_57 :
  Qred (_total_hours 57) = 4563647622402103 # 288230376151711744
  /\ 57 < _total_hours 57 * 3600.
Proof. split; [vm_compute; reflexivity|]. vm_compute. reflexivity. Qed.

End Rounding.

(** ** The aggregation *)

Section Aggregation.
Context {engine : Re}.
Local Open Scope Z_scope.

Variables (start_date end_date : option instant) (allday : bool).
Variable regexes : list rule.

Lemma _group_first_match (s : string) (rules : list rule) :
  (exists before pattern after,
      rules = (before ++ (pattern, _group s rules) :: after)%list
      /\ none_matches s before
      /\ matches pattern s = true)
  \/ (none_matches s rules /\ _group s rules = s).
Proof.
  induction rules as [|[pattern replacement] rest IH]; simpl.
  - right. split; [constructor | reflexivity].
  - destruct (matches pattern s) eqn:E.
    + left. exists [], pattern, rest. repeat split; [constructor | assumption].
    + destruct IH as [(before & p & after & Heq & Hnone & Hp) | [Hnone Heq]].
      * left. exists ((pattern, replacement) :: before), p, after.
        repeat split; [simpl; f_equal; exact Heq | | assumption].
        constructor; assumption.
      * right. split; [constructor; assumption | assumption].
Qed.

Lemma step_included (groups : dict) (total_seconds : Z) (event : Event) :
  skipped start_date end_date allday event = false ->
  step start_date end_date allday regexes (groups, total_seconds) event
  = (add groups (_group (name event) regexes) (duration event),
     total_seconds + duration event).
Proof. unfold step. now intros ->. Qed.

Lemma step_skipped (st : dict * Z) (event : Event) :
  skipped start_date end_date allday event = true ->
  step start_date end_date allday regexes st event = st.
Proof. unfold step. destruct st. now intros ->. Qed.

(** One turn of the loop on an included event: the whole duration goes
    to the group named by [_group], and to no other group. *)
Lemma step_feeds_one_group
      (groups : dict) (total_seconds : Z) (event : Event) :
  skipped start_date end_date allday event = false ->
  let group := _group (name event) regexes in
  let after :=
    fst (step start_date end_date allday regexes
              (groups, total_seconds) event) in
  get after group = get groups group + duration event
  /\ (forall other, other <> group -> get after other = get groups other).
Proof.
  intros Hin group after. subst after.
  rewrite (step_included _ _ _ Hin). simpl. fold group.
  split; [apply get_add_same|].
  intros other Hne; now apply get_add_other.
Qed.

(** What the loop adds to the seconds under [key]: the durations of the
    events that it counts in that group. *)
Lemma fold_step_get (calendar : list Event) (key : string) :
  forall st : dict * Z,
    get (fst (fold_left (step start_date end_date allday regexes)
                        calendar st)) key
    = get (fst st) key
      + sum (map duration
                 (filter (counted_in start_date end_date allday regexes key)
                         calendar)).
Proof.
  induction calendar as [|event rest IH]; intros st; cbn [fold_left filter].
  - simpl. lia.
  - rewrite IH. destruct st as [groups total_seconds].
    unfold counted_in at 2, included.
    destruct (skipped start_date end_date allday event) eqn:E; cbn [negb andb].
    + rewrite (step_skipped _ _ E). lia.
    + rewrite (step_included _ _ _ E). cbn [fst].
      destruct (String.eqb_spec (_group (name event) regexes) key)
        as [<-|Hne].
      * rewrite get_add_same. simpl. lia.
      * rewrite get_add_other by congruence. lia.
Qed.

Lemma sum_app (a b : list Z) : sum (a ++ b) = sum a + sum b.
Proof. unfold sum. induction a as [|x a IH]; simpl; lia. Qed.

(** The loop never takes a group away. *)
Lemma fold_step_keeps_keys (calendar : list Event) (key : string) :
  forall st : dict * Z,
    In key (keys (fst st)) ->
    In key (keys (fst (fold_left (step start_date end_date allday regexes)
                                 calendar st))).
Proof.
  induction calendar as [|event rest IH]; intros st Hin; cbn [fold_left].
  - exact Hin.
  - apply IH. destruct st as [groups total_seconds]. unfold step.
    destruct (skipped start_date end_date allday event); [exact Hin|].
    cbn [fst] in *. apply keys_add. now right.
Qed.

(** The state of the loop keeps [total_seconds] equal to the sum over
    the groups, and to what the included events add to what it was. *)
Lemma fold_step_total (calendar : list Event) (st : dict * Z) :
  snd st = sum (values (fst st)) ->
  let st' :=
    fold_left (step start_date end_date allday regexes) calendar st in
  snd st' = sum (values (fst st'))
  /\ snd st' =
     snd st + sum (map duration
                       (filter (included start_date end_date allday)
                               calendar)).
Proof.
  revert st.
  induction calendar as [|event rest IH]; intros st Hst;
    cbn [fold_left filter].
  - simpl. split; [assumption | lia].
  - destruct st as [groups total_seconds]. simpl in Hst.
    unfold included at 1.
    destruct (skipped start_date end_date allday event) eqn:E;
      cbn [negb].
    + rewrite (step_skipped _ _ E). now apply IH.
    + rewrite (step_included _ _ _ E).
      destruct (IH (add groups (_group (name event) regexes)
                        (duration event),
                    total_seconds + duration event)) as [H1 H2].
      { simpl. rewrite sum_values_add. lia. }
      split; [exact H1|]. rewrite H2. simpl. lia.
Qed.

(** C4.  The loop ends with the groups and with [total_seconds], the sum
    of the durations of the included events, which is the sum of the
    durations accumulated over the groups. *)
Theorem grand_total_is_sum_of_groups (calendar : list Event) :
  let groups :=
    fst (aggregate calendar start_date end_date allday regexes) in
  let total_seconds :=
    snd (aggregate calendar start_date end_date allday regexes) in
  total_seconds =
    sum (map duration
             (filter (included start_date end_date allday) calendar))
  /\ total_seconds = sum (values groups).
Proof.
  unfold aggregate.
  destruct (fold_step_total calendar ([], 0)) as [H1 H2]; [reflexivity|].
  simpl in *. split; [rewrite H2; lia | exact H1].
Qed.

(** C2.  What an included event of the calendar does to the result of the
    loop: with the event, the group named by [_group] ends with the whole
    duration of the event more than without it, every other group ends
    as without it, and so the total grows by that duration; the group is
    there at the end, whatever the duration.  The group is the
    replacement of the first rule, in the order given, whose pattern
    matches the name of the event, and the name itself when no rule
    matches, as when there is no rule at all. *)
Theorem included_event_feeds_one_group
        (before rest : list Event) (event : Event) :
  skipped start_date end_date allday event = false ->
  let group := _group (name event) regexes in
  let with_event :=
    aggregate (before ++ event :: rest) start_date end_date allday
              regexes in
  let without :=
    aggregate (before ++ rest) start_date end_date allday regexes in
  get (fst with_event) group = get (fst without) group + duration event
  /\ (forall other,
         other <> group ->
         get (fst with_event) other = get (fst without) other)
  /\ snd with_event = snd without + duration event
  /\ In group (keys (fst with_event))
  /\ ((exists earlier pattern later,
          regexes = (earlier ++ (pattern, group) :: later)%list
          /\ none_matches (name event) earlier
          /\ matches pattern (name event) = true)
      \/ (none_matches (name event) regexes /\ group = name event))
  /\ (regexes = [] -> group = name event).
Proof.
  intros Hin group with_event without. subst with_event without.
  assert (Hget : forall key,
             get (fst (aggregate (before ++ event :: rest) start_date
                                 end_date allday regexes)) key
             = get (fst (aggregate (before ++ rest) start_date end_date
                                   allday regexes)) key
               + (if String.eqb group key then duration event else 0)).
  { intros key. unfold aggregate. rewrite !fold_step_get.
    rewrite !filter_app, !map_app, !sum_app. cbn [filter fst get].
    unfold counted_in at 2, included. rewrite Hin. cbn [negb andb].
    fold group. destruct (String.eqb group key); simpl; lia. }
  split; [rewrite Hget, String.eqb_refl; reflexivity|].
  split.
  { intros other Hne. rewrite Hget.
    destruct (String.eqb_spec group other); [congruence|lia]. }
  split.
  { unfold aggregate.
    destruct (fold_step_total (before ++ event :: rest) ([], 0))
      as [_ H1]; [reflexivity|].
    destruct (fold_step_total (before ++ rest) ([], 0))
      as [_ H2]; [reflexivity|].
    rewrite H1, H2, !filter_app, !map_app, !sum_app. cbn [filter].
    unfold included at 2. rewrite Hin. simpl. lia. }
  split.
  { unfold aggregate. rewrite fold_left_app. cbn [fold_left].
    apply fold_step_keeps_keys.
    destruct (fold_left _ before _) as [groups total_seconds].
    rewrite (step_included _ _ _ Hin). cbn [fst]. apply keys_add.
    now left. }
  split; [apply _group_first_match|].
  intros Hnil. subst group. now rewrite Hnil.
Qed.

End Aggregation.

(** ** The rule grammar *)

Section Grammar.

Lemma join_chars (s : string) : join (chars s) = s.
Proof.
  unfold join. induction s as [|c r IH]; [reflexivity|].
  destruct r as [|d r']; [reflexivity|].
  change (String c "" ++ "" ++ String.concat "" (chars (String d r'))
          = String c (String d r')).
  now rewrite IH.
Qed.

Lemma length_chars (s : string) : List.length (chars s) = String.length s.
Proof. induction s; simpl; congruence. Qed.

Lemma all_chars_app (ok : ascii -> bool) (a b : string) :
  all_chars ok (a ++ b) = all_chars ok a && all_chars ok b.
Proof.
  induction a as [|c a IH]; simpl; [reflexivity|].
  now rewrite IH, andb_assoc.
Qed.

Lemma all_chars_impl (ok ok' : ascii -> bool) (s : string) :
  (forall c, ok c = true -> ok' c = true) ->
  all_chars ok s = true -> all_chars ok' s = true.
Proof.
  intros Himp. induction s as [|c r IH]; simpl; [reflexivity|].
  intros H. apply andb_prop in H as [Hc Hr].
  now rewrite (Himp _ Hc), IH.
Qed.

Lemma preParse_idem (s : string) : preParse (preParse s) = preParse s.
Proof.
  induction s as [|c r IH]; simpl; [reflexivity|].
  destruct (white c) eqn:E; [assumption|]. simpl. now rewrite E.
Qed.

Lemma preParse_head (c : ascii) (r : string) :
  white c = false -> preParse (String c r) = String c r.
Proof. intros H. simpl. now rewrite H. Qed.

Lemma preParse_not_white (s : string) :
  all_chars not_white s = true -> preParse s = s.
Proof.
  destruct s as [|c r]; simpl; [reflexivity|].
  unfold not_white. destruct (white c); [discriminate | reflexivity].
Qed.

Lemma expandtabs_from_no_tab (col : nat) (s : string) :
  all_chars not_tab s = true -> expandtabs_from col s = s.
Proof.
  revert col. induction s as [|c r IH]; intros col; simpl; [reflexivity|].
  unfold not_tab at 1. intros H. apply andb_prop in H as [Hc Hr].
  apply negb_true_iff in Hc. rewrite Hc.
  destruct (Ascii.eqb c LF || Ascii.eqb c CR); now rewrite IH.
Qed.

Lemma span_spec (ok : ascii -> bool) (s w r : string) :
  span ok s = (w, r) ->
  s = w ++ r /\ all_chars ok w = true
  /\ match r with String c _ => ok c = false | EmptyString => True end.
Proof.
  revert w r. induction s as [|c s IH]; simpl; intros w r H.
  - inversion H. auto.
  - destruct (ok c) eqn:E.
    + destruct (span ok s) as [w' r'] eqn:Es. inversion H; subst.
      destruct (IH _ _ eq_refl) as (-> & Hw & Hr).
      simpl. rewrite E. auto.
    + inversion H; subst. simpl. auto.
Qed.

Lemma span_app (ok : ascii -> bool) (w r : string) :
  all_chars ok w = true ->
  match r with String c _ => ok c = false | EmptyString => True end ->
  span ok (w ++ r) = (w, r).
Proof.
  intros Hw Hr. induction w as [|c w IH]; simpl.
  - destruct r as [|c r]; [reflexivity|]. simpl. now rewrite Hr.
  - simpl in Hw. apply andb_prop in Hw as [Hc Hw].
    now rewrite Hc, (IH Hw).
Qed.

(** The cases of a character: each of the five flags, where the goal
    computes, and then any other character. *)
Ltac by_flag c :=
  destruct (Ascii.eqb_spec c "i") as [->|_]; [reflexivity|];
  destruct (Ascii.eqb_spec c "L") as [->|_]; [reflexivity|];
  destruct (Ascii.eqb_spec c "s") as [->|_]; [reflexivity|];
  destruct (Ascii.eqb_spec c "u") as [->|_]; [reflexivity|];
  destruct (Ascii.eqb_spec c "x") as [->|_]; [reflexivity|].

Lemma parse_Or (e1 e2 : ParserElement) (s : string) :
  _parse (e1 ^ e2)%pp s =
  match _parse e1 s, _parse e2 s with
  | Some (t1, r1), Some (t2, r2) =>
      if (String.length r1 <=? String.length r2)%nat
      then Some (t1, r1) else Some (t2, r2)
  | Some x, None => Some x
  | None, Some y => Some y
  | None, None => None
  end.
Proof. unfold _parse at 1. cbn [Or parseImpl]. unfold _parse.
       now rewrite preParse_idem. Qed.

Lemma parse_flag (s : string) :
  _parse flag s =
  match preParse s with
  | String c r => if flag_char c then Some ([String c ""], r) else None
  | EmptyString => None
  end.
Proof.
  unfold flag. rewrite !parse_Or. unfold _parse. cbn [Literal parseImpl].
  destruct (preParse s) as [|c r]; [reflexivity|].
  unfold flag_char. by_flag c. reflexivity.
Qed.

Lemma flag_char_not_white (c : ascii) :
  flag_char c = true -> white c = false.
Proof.
  unfold flag_char. by_flag c. discriminate.
Qed.

(** *** What each element does behind skipped white space *)

Lemma parse_And (e1 e2 : ParserElement) (s : string) :
  _parse (e1 + e2)%pp s =
  match _parse e1 s with
  | Some (t1, r1) =>
      match _parse e2 r1 with
      | Some (t2, r2) => Some ((t1 ++ t2)%list, r2)
      | None => None
      end
  | None => None
  end.
Proof. reflexivity. Qed.

Lemma parse_slash (s : string) :
  _parse (suppress (Literal "/")) s =
  match preParse s with
  | String c r => if Ascii.eqb c SLASH then Some ([], r) else None
  | EmptyString => None
  end.
Proof.
  unfold _parse. cbn [suppress Literal parseImpl].
  destruct (preParse s) as [|c r]; [reflexivity|].
  unfold SLASH. destruct (Ascii.eqb c "/"); reflexivity.
Qed.

Lemma parse_Word (ok : ascii -> bool) (s : string) :
  _parse (Word ok) s =
  match span ok (preParse s) with
  | (EmptyString, _) => None
  | (w, r) => Some ([w], r)
  end.
Proof. reflexivity. Qed.

Lemma parse_Optional (e : ParserElement) (s : string) :
  _parse (Optional e) s =
  match _parse e s with
  | Some x => Some x
  | None => Some ([], preParse s)
  end.
Proof. reflexivity. Qed.

Lemma parse_ZeroOrMore (e : ParserElement) (s : string) :
  _parse (ZeroOrMore e) s =
  match _parse e s with
  | Some (t, r) =>
      let (ts, r') := ZeroOrMore_loop (S (String.length r)) e r in
      Some ((t ++ ts)%list, r')
  | None => Some ([], preParse s)
  end.
Proof. reflexivity. Qed.

Lemma parse_StringEnd (s : string) :
  _parse StringEnd s =
  match preParse s with
  | EmptyString => Some ([], "")
  | String _ _ => None
  end.
Proof. reflexivity. Qed.

(** *** The run of flags *)

Lemma preParse_length (s : string) :
  (String.length (preParse s) <= String.length s)%nat.
Proof.
  induction s as [|c r IH]; simpl; [lia|].
  destruct (white c); simpl; lia.
Qed.

Lemma parse_flag_consumes (s : string) (t : ParseResults) (r : string) :
  _parse flag s = Some (t, r) -> (String.length r < String.length s)%nat.
Proof.
  rewrite parse_flag. pose proof (preParse_length s) as Hlen.
  destruct (preParse s) as [|c r']; [discriminate|].
  destruct (flag_char c); [|discriminate].
  intros H. inversion H; subst. simpl in Hlen. lia.
Qed.

(** The fuel of the loop is never used up: a match of [flag] takes a
    character, and any fuel above the length of the text gives the same
    tokens. *)
Lemma loop_fuel_enough (fuel : nat) :
  forall s fuel',
    (String.length s < fuel)%nat -> (String.length s < fuel')%nat ->
    ZeroOrMore_loop fuel flag s = ZeroOrMore_loop fuel' flag s.
Proof.
  induction fuel as [|fuel IH]; intros s fuel' H H'; [lia|].
  destruct fuel' as [|fuel']; [lia|]. cbn [ZeroOrMore_loop].
  destruct (_parse flag s) as [[t r]|] eqn:E; [|reflexivity].
  pose proof (parse_flag_consumes _ _ _ E).
  now rewrite (IH r fuel') by lia.
Qed.

Lemma loop_flags (f : string) :
  all_chars flag_char f = true ->
  forall fuel, (String.length f < fuel)%nat ->
  ZeroOrMore_loop fuel flag f = (chars f, "").
Proof.
  induction f as [|c f IH]; intros Hf fuel Hfuel.
  - destruct fuel; [inversion Hfuel|]. reflexivity.
  - destruct fuel; [inversion Hfuel|].
    simpl in Hf. apply andb_prop in Hf as [Hc Hf].
    cbn [ZeroOrMore_loop]. rewrite parse_flag.
    rewrite (preParse_head _ _ (flag_char_not_white _ Hc)), Hc.
    rewrite (IH Hf) by (simpl in Hfuel; lia). reflexivity.
Qed.

Lemma parse_flags (f : string) :
  all_chars flag_char f = true ->
  _parse (ZeroOrMore flag) f = Some (chars f, "").
Proof.
  intros Hf. rewrite parse_ZeroOrMore, parse_flag.
  destruct f as [|c f]; [reflexivity|].
  simpl in Hf. apply andb_prop in Hf as [Hc Hf].
  rewrite (preParse_head _ _ (flag_char_not_white _ Hc)), Hc.
  now rewrite (loop_flags _ Hf) by lia.
Qed.

(** On a text without white space the loop takes the flags in front and
    stops at the first character that is not a flag. *)
Lemma loop_flags_inv (fuel : nat) :
  forall s ts r,
    all_chars not_white s = true ->
    ZeroOrMore_loop fuel flag s = (ts, r) ->
    exists f, s = f ++ r /\ all_chars flag_char f = true /\ ts = chars f.
Proof.
  induction fuel as [|fuel IH]; intros s ts r Hs H.
  - inversion H; subst. exists "". auto.
  - cbn [ZeroOrMore_loop] in H. rewrite parse_flag in H.
    rewrite (preParse_not_white _ Hs) in H.
    destruct s as [|c s].
    + inversion H; subst. exists "". auto.
    + destruct (flag_char c) eqn:Hc.
      * simpl in Hs. apply andb_prop in Hs as [_ Hs].
        destruct (ZeroOrMore_loop fuel flag s) as [ts' r'] eqn:E.
        inversion H; subst.
        destruct (IH _ _ _ Hs E) as (f & -> & Hf & ->).
        exists (String c f). simpl. now rewrite Hc, Hf.
      * inversion H; subst. exists "". auto.
Qed.


Lemma append_nil_r (s : string) : s ++ "" = s.
Proof. induction s; simpl; congruence. Qed.

Lemma parse_Word_app (w r : string) :
  starts_black w = true ->
  all_chars pattern_char w = true ->
  match r with String c _ => pattern_char c = false | EmptyString => True end ->
  _parse (Word pattern_char) (w ++ r) = Some ([w], r).
Proof.
  intros Hb Hw Hr. rewrite parse_Word.
  destruct w as [|c w]; [discriminate|].
  simpl in Hb. apply negb_true_iff in Hb.
  change (String c w ++ r) with (String c (w ++ r)).
  rewrite (preParse_head _ _ Hb).
  change (String c (w ++ r)) with (String c w ++ r).
  now rewrite (span_app _ _ _ Hw Hr).
Qed.

Lemma regexBNF_flag :
  regexBNF =
  (suppress (Literal "/") + Word pattern_char +
   suppress (Literal "/") + Word pattern_char +
   Optional (suppress (Literal "/") + ZeroOrMore flag) + StringEnd)%pp.
Proof. reflexivity. Qed.

Lemma parse_slash_head (x : string) :
  _parse (suppress (Literal "/")) (String "/" x) = Some ([], x).
Proof. reflexivity. Qed.

Lemma regexBNF_accepts (p r : string) :
  starts_black p = true -> all_chars pattern_char p = true ->
  starts_black r = true -> all_chars pattern_char r = true ->
  _parse regexBNF ("/" ++ p ++ "/" ++ r) = Some ([p; r], "")
  /\ forall f, all_chars flag_char f = true ->
       _parse regexBNF ("/" ++ p ++ "/" ++ r ++ "/" ++ f)
       = Some (p :: r :: chars f, "").
Proof.
  intros Hbp Hp Hbr Hr. rewrite regexBNF_flag. split; [|intros f Hf].
  - rewrite !parse_And.
    change ("/" ++ p ++ "/" ++ r) with (String "/" (p ++ String "/" r)).
    rewrite parse_slash_head.
    rewrite (parse_Word_app p (String "/" r) Hbp Hp eq_refl).
    rewrite parse_slash_head.
    pose proof (parse_Word_app r "" Hbr Hr I) as Hw.
    rewrite append_nil_r in Hw. rewrite Hw.
    reflexivity.
  - rewrite !parse_And.
    change ("/" ++ p ++ "/" ++ r ++ "/" ++ f)
      with (String "/" (p ++ String "/" (r ++ String "/" f))).
    rewrite parse_slash_head.
    rewrite (parse_Word_app p (String "/" _) Hbp Hp eq_refl).
    rewrite parse_slash_head.
    rewrite (parse_Word_app r (String "/" f) Hbr Hr eq_refl).
    rewrite parse_Optional, parse_And, parse_slash_head.
    rewrite (parse_flags f Hf), parse_StringEnd. simpl.
    now rewrite app_nil_r.
Qed.
Lemma parse_flags_inv (s : string) (ts : ParseResults) (r : string) :
  all_chars not_white s = true ->
  _parse (ZeroOrMore flag) s = Some (ts, r) ->
  exists f, s = f ++ r /\ all_chars flag_char f = true /\ ts = chars f.
Proof.
  intros Hs H. rewrite parse_ZeroOrMore, parse_flag in H.
  rewrite (preParse_not_white _ Hs) in H.
  destruct s as [|c s].
  - inversion H; subst. exists "". auto.
  - destruct (flag_char c) eqn:Hc.
    + simpl in Hs. apply andb_prop in Hs as [_ Hs].
      destruct (ZeroOrMore_loop (S (String.length s)) flag s)
        as [ts' r'] eqn:E.
      inversion H; subst.
      destruct (loop_flags_inv _ _ _ _ Hs E) as (f & -> & Hf & ->).
      exists (String c f). simpl. now rewrite Hc, Hf.
    + inversion H; subst. exists "". auto.
Qed.

Lemma parse_Word_inv (s : string) (ts : ParseResults) (r : string) :
  all_chars not_white s = true ->
  _parse (Word pattern_char) s = Some (ts, r) ->
  exists w, ts = [w] /\ word w /\ s = w ++ r
            /\ match r with
               | String c _ => pattern_char c = false
               | EmptyString => True
               end.
Proof.
  intros Hs H. rewrite parse_Word, (preParse_not_white _ Hs) in H.
  destruct (span pattern_char s) as [w r'] eqn:E.
  destruct (span_spec _ _ _ _ E) as (-> & Hw & Hr).
  destruct w as [|c w]; [discriminate|]. inversion H; subst.
  exists (String c w). repeat split; auto. discriminate.
Qed.

Lemma parse_slash_inv (s : string) (ts : ParseResults) (r : string) :
  all_chars not_white s = true ->
  _parse (suppress (Literal "/")) s = Some (ts, r) ->
  ts = [] /\ s = String "/" r.
Proof.
  intros Hs H. rewrite parse_slash, (preParse_not_white _ Hs) in H.
  destruct s as [|c s]; [discriminate|].
  destruct (Ascii.eqb_spec c SLASH) as [->|_]; [|discriminate].
  now inversion H.
Qed.

Lemma regexBNF_inv (s : string) (toks : ParseResults) (rest : string) :
  all_chars not_white s = true ->
  _parse regexBNF s = Some (toks, rest) ->
  exists p r,
    word p /\ word r
    /\ ((s = "/" ++ p ++ "/" ++ r /\ toks = [p; r])
        \/ exists f, all_chars flag_char f = true
                     /\ s = "/" ++ p ++ "/" ++ r ++ "/" ++ f
                     /\ toks = p :: r :: chars f).
Proof.
  intros Hs H. rewrite regexBNF_flag, !parse_And in H.
  destruct (_parse (suppress (Literal "/")) s) as [[t0 s1]|] eqn:E0;
    [|discriminate].
  destruct (parse_slash_inv _ _ _ Hs E0) as [-> ->].
  simpl in Hs.
  destruct (_parse (Word pattern_char) s1) as [[t1 s2]|] eqn:E1;
    [|discriminate].
  destruct (parse_Word_inv _ _ _ Hs E1) as (p & -> & Hp & -> & _).
  rewrite all_chars_app in Hs. apply andb_prop in Hs as [_ Hs].
  destruct (_parse (suppress (Literal "/")) s2) as [[t2 s3]|] eqn:E2;
    [|discriminate].
  destruct (parse_slash_inv _ _ _ Hs E2) as [-> ->].
  simpl in Hs.
  destruct (_parse (Word pattern_char) s3) as [[t3 s4]|] eqn:E3;
    [|discriminate].
  destruct (parse_Word_inv _ _ _ Hs E3) as (r & -> & Hr & -> & _).
  rewrite all_chars_app in Hs. apply andb_prop in Hs as [_ Hs].
  exists p, r. split; [exact Hp|]. split; [exact Hr|].
  clear E0 E1 E2 E3.
  rewrite parse_Optional, parse_And in H.
  destruct (_parse (suppress (Literal "/")) s4) as [[t4 s5]|] eqn:E4.
  - destruct (parse_slash_inv _ _ _ Hs E4) as [-> ->]. simpl in Hs.
    destruct (_parse (ZeroOrMore flag) s5) as [[t5 s6]|] eqn:E5;
      [|rewrite parse_ZeroOrMore in E5;
        destruct (_parse flag s5) as [[? ?]|];
        [destruct (ZeroOrMore_loop _ _ _)|]; discriminate].
    destruct (parse_flags_inv _ _ _ Hs E5) as (f & -> & Hf & ->).
    rewrite all_chars_app in Hs. apply andb_prop in Hs as [_ Hs].
    rewrite parse_StringEnd, (preParse_not_white _ Hs) in H.
    destruct s6; [|discriminate]. inversion H; subst.
    right. exists f. rewrite append_nil_r, app_nil_r. auto.
  - rewrite (preParse_not_white _ Hs), parse_StringEnd,
      (preParse_not_white _ Hs) in H.
    destruct s4; [|discriminate]. inversion H; subst.
    left. now rewrite append_nil_r.
Qed.

Lemma not_white_not_tab (s : string) :
  all_chars not_white s = true -> all_chars not_tab s = true.
Proof.
  apply all_chars_impl. intros c. unfold not_white, not_tab, white.
  destruct (Ascii.eqb c TAB); [|reflexivity].
  now rewrite !orb_true_r.
Qed.

Lemma word_starts_black (w : string) :
  w <> "" -> all_chars not_white w = true -> starts_black w = true.
Proof.
  destruct w as [|c w]; [congruence|]. simpl. intros _ H.
  now apply andb_prop in H as [H _].
Qed.

Lemma count_slash_app (a b : string) :
  count_slash (a ++ b) = count_slash a + count_slash b.
Proof. induction a as [|c a IH]; simpl; [reflexivity | lia]. Qed.

Lemma flags_have_no_tab (f : string) :
  all_chars flag_char f = true -> all_chars not_tab f = true.
Proof.
  apply all_chars_impl. intros c Hc.
  apply flag_char_not_white in Hc. unfold not_tab, white in *.
  destruct (Ascii.eqb c TAB); [|reflexivity].
  now rewrite !orb_true_r in Hc.
Qed.

Lemma expandtabs_rule (p r tail : string) :
  all_chars not_tab p = true -> all_chars not_tab r = true ->
  all_chars not_tab tail = true ->
  expandtabs ("/" ++ p ++ "/" ++ r ++ tail) = "/" ++ p ++ "/" ++ r ++ tail.
Proof.
  intros Hp Hr Ht. apply expandtabs_from_no_tab.
  change ("/" ++ ?x) with (String "/" x). simpl.
  rewrite all_chars_app. simpl. rewrite all_chars_app.
  now rewrite Hp, Hr, Ht.
Qed.

(** A rule string of the form is parsed, white space inside its pattern
    and its replacement included, when neither begins with white space
    nor holds a tab; its tokens are the pattern, the replacement and the
    flags. *)
Lemma clean_rule_is_parsed (p r f : string) :
  starts_black p = true -> all_chars pattern_char p = true ->
  all_chars not_tab p = true ->
  starts_black r = true -> all_chars pattern_char r = true ->
  all_chars not_tab r = true ->
  all_chars flag_char f = true ->
  parseString regexBNF ("/" ++ p ++ "/" ++ r) = Some [p; r]
  /\ parseString regexBNF ("/" ++ p ++ "/" ++ r ++ "/" ++ f)
     = Some (p :: r :: chars f).
Proof.
  intros Hbp Hp Htp Hbr Hr Htr Hf.
  destruct (regexBNF_accepts p r Hbp Hp Hbr Hr) as [H1 H2].
  unfold parseString. split.
  - pose proof (expandtabs_rule p r "" Htp Htr eq_refl) as Hexp.
    rewrite append_nil_r in Hexp. now rewrite Hexp, H1.
  - rewrite (expandtabs_rule p r ("/" ++ f) Htp Htr)
      by (simpl; now apply flags_have_no_tab).
    now rewrite (H2 f Hf).
Qed.

(** C3, as amended.  The third [/] is optional.  A rule string without
    white space is parsed exactly when it is [/PATTERN/REPLACEMENT], alone
    or followed by [/] and zero or more of the flags [i], [L], [s], [u],
    [x], where PATTERN and REPLACEMENT are non-empty and without [/];
    nothing may be left over.  A rule string of that form is parsed as
    well when PATTERN and REPLACEMENT hold white space, provided neither
    begins with white space nor holds a tab. *)
Theorem rule_parses_iff_form :
  (forall regex,
      all_chars not_white regex = true ->
      ((exists parsed, parseString regexBNF regex = Some parsed) <->
       exists p r,
         word p /\ word r
         /\ (regex = "/" ++ p ++ "/" ++ r
             \/ exists f, all_chars flag_char f = true
                          /\ regex = "/" ++ p ++ "/" ++ r ++ "/" ++ f)))
  /\ (forall p r f,
         starts_black p = true -> all_chars pattern_char p = true ->
         all_chars not_tab p = true ->
         starts_black r = true -> all_chars pattern_char r = true ->
         all_chars not_tab r = true ->
         all_chars flag_char f = true ->
         parseString regexBNF ("/" ++ p ++ "/" ++ r) = Some [p; r]
         /\ parseString regexBNF ("/" ++ p ++ "/" ++ r ++ "/" ++ f)
            = Some (p :: r :: chars f)).
Proof.
  split; [|exact clean_rule_is_parsed].
  intros regex Hs. unfold parseString, expandtabs.
  rewrite (expandtabs_from_no_tab _ _ (not_white_not_tab _ Hs)).
  split.
  - intros [parsed H].
    destruct (_parse regexBNF regex) as [[toks rest]|] eqn:E;
      [|discriminate].
    destruct (regexBNF_inv _ _ _ Hs E)
      as (p & r & Hp & Hr & [[-> _] | (f & Hf & -> & _)]);
      exists p, r; repeat split; try apply Hp; try apply Hr; eauto.
  - intros (p & r & [Hp0 Hp] & [Hr0 Hr] & Hform).
    assert (Hblack : all_chars not_white p = true
                     /\ all_chars not_white r = true).
    { destruct Hform as [-> | (f & _ & ->)];
        change ("/" ++ ?x) with (String "/" x) in Hs; simpl in Hs;
        rewrite !all_chars_app in Hs; simpl in Hs;
        rewrite ?all_chars_app in Hs;
        repeat (apply andb_prop in Hs as [? Hs]); split; assumption. }
    destruct Hblack as [Hbp Hbr].
    destruct (regexBNF_accepts p r (word_starts_black _ Hp0 Hbp) Hp
                               (word_starts_black _ Hr0 Hbr) Hr)
      as [H1 H2].
    destruct Hform as [-> | (f & Hf & ->)].
    + rewrite H1. eauto.
    + rewrite (H2 f Hf). eauto.
Qed.

Lemma rule_parses_iff_form_witness :
  all_chars not_white "/Meeting.*/Work/i" = true
  /\ ((exists parsed,
          parseString regexBNF "/Meeting.*/Work/i" = Some parsed) <->
      exists p r,
        word p /\ word r
        /\ ("/Meeting.*/Work/i" = "/" ++ p ++ "/" ++ r
            \/ exists f, all_chars flag_char f = true
                         /\ "/Meeting.*/Work/i"
                            = "/" ++ p ++ "/" ++ r ++ "/" ++ f))
  /\ parseString regexBNF "/Team Meeting/Work time/is"
     = Some ["Team Meeting"; "Work time"; "i"; "s"].
Proof.
  split; [reflexivity|]. split.
  - apply (proj1 rule_parses_iff_form "/Meeting.*/Work/i"). reflexivity.
  - apply (proj2 rule_parses_iff_form "Team Meeting" "Work time" "is");
      reflexivity.
Defined.

(** C3, as stated, fails: [/foo/bar] has no third [/] and is parsed. *)
Lemma rule_without_third_slash_is_parsed :
  parseString regexBNF "/foo/bar" = Some ["foo"; "bar"]
  /\ ~ (exists p r f, "/foo/bar" = "/" ++ p ++ "/" ++ r ++ "/" ++ f).
Proof.
  split; [reflexivity|].
  intros (p & r & f & H). apply (f_equal count_slash) in H.
  rewrite !count_slash_app in H. simpl in H. lia.
Qed.

(** What a rule string gives when neither its pattern nor its
    replacement begins with white space or holds a tab: the regex is the
    pattern, behind [(?flags)] when there are flags, and the replacement
    is kept as it is. *)
Lemma parse_rule_clean (p r : string) :
  starts_black p = true -> all_chars pattern_char p = true ->
  all_chars not_tab p = true ->
  starts_black r = true -> all_chars pattern_char r = true ->
  all_chars not_tab r = true ->
  parse_rule ("/" ++ p ++ "/" ++ r) = Some (p, r)
  /\ parse_rule ("/" ++ p ++ "/" ++ r ++ "/") = Some (p, r)
  /\ forall f, all_chars flag_char f = true -> f <> "" ->
       parse_rule ("/" ++ p ++ "/" ++ r ++ "/" ++ f)
       = Some ("(?" ++ f ++ ")" ++ p, r).
Proof.
  intros Hbp Hp Htp Hbr Hr Htr. unfold parse_rule. repeat split.
  - now rewrite (proj1 (clean_rule_is_parsed p r "" Hbp Hp Htp Hbr Hr Htr
                                             eq_refl)).
  - pose proof (proj2 (clean_rule_is_parsed p r "" Hbp Hp Htp Hbr Hr Htr
                                            eq_refl)) as H.
    change ("/" ++ "") with "/" in H. now rewrite H.
  - intros f Hf Hne.
    rewrite (proj2 (clean_rule_is_parsed p r f Hbp Hp Htp Hbr Hr Htr Hf)).
    unfold rule_strings. cbn [List.length].
    rewrite length_chars, join_chars.
    destruct f as [|c f]; [congruence | reflexivity].
Qed.

Lemma preParse_white_app (w x : string) :
  all_chars white w = true -> preParse (w ++ x) = preParse x.
Proof.
  induction w as [|c w IH]; simpl; [reflexivity|].
  intros H. apply andb_prop in H as [Hc Hw]. now rewrite Hc, IH.
Qed.

Lemma parse_skips_white (e : ParserElement) (w x : string) :
  all_chars white w = true -> _parse e (w ++ x) = _parse e x.
Proof. intros Hw. unfold _parse. now rewrite preParse_white_app. Qed.

(** White space in front of the pattern and of the replacement is skipped
    and leaves no trace in the tokens. *)
Lemma regexBNF_skips_white (w1 p w2 r tail : string) :
  all_chars white w1 = true -> all_chars white w2 = true ->
  starts_black p = true -> all_chars pattern_char p = true ->
  starts_black r = true -> all_chars pattern_char r = true ->
  match tail with
  | String c _ => pattern_char c = false
  | EmptyString => True
  end ->
  _parse regexBNF ("/" ++ w1 ++ p ++ "/" ++ w2 ++ r ++ tail)
  = _parse regexBNF ("/" ++ p ++ "/" ++ r ++ tail).
Proof.
  intros Hw1 Hw2 Hbp Hp Hbr Hr Htail. rewrite regexBNF_flag, !parse_And.
  change ("/" ++ w1 ++ p ++ "/" ++ w2 ++ r ++ tail)
    with (String "/" (w1 ++ p ++ String "/" (w2 ++ r ++ tail))).
  change ("/" ++ p ++ "/" ++ r ++ tail)
    with (String "/" (p ++ String "/" (r ++ tail))).
  rewrite !parse_slash_head, (parse_skips_white _ w1 _ Hw1).
  rewrite !(parse_Word_app p (String "/" _) Hbp Hp eq_refl).
  rewrite !parse_slash_head, (parse_skips_white _ w2 _ Hw2).
  reflexivity.
Qed.

(** C7 on the rule strings whose pattern or replacement stands behind
    white space: the white space is dropped, the regex is made of what
    follows it and the replacement is what follows it; and a tab inside a
    pattern becomes the blanks that reach the next multiple of eight
    columns. *)
Theorem leading_white_space_and_tabs_are_lost (w1 p w2 r f : string) :
  all_chars white w1 = true -> all_chars not_tab w1 = true ->
  all_chars white w2 = true -> all_chars not_tab w2 = true ->
  starts_black p = true -> all_chars pattern_char p = true ->
  all_chars not_tab p = true ->
  starts_black r = true -> all_chars pattern_char r = true ->
  all_chars not_tab r = true ->
  all_chars flag_char f = true ->
  parse_rule ("/" ++ w1 ++ p ++ "/" ++ w2 ++ r ++ "/" ++ f)
  = Some (if String.eqb f "" then p else "(?" ++ f ++ ")" ++ p, r)
  /\ parse_rule ("/a" ++ String TAB "b/c/") = Some ("a      b", "c").
Proof.
  intros Hw1 Ht1 Hw2 Ht2 Hbp Hp Htp Hbr Hr Htr Hf.
  split; [|reflexivity].
  destruct (parse_rule_clean p r Hbp Hp Htp Hbr Hr Htr)
    as (_ & Hnone & Hsome).
  assert (Hsame : parse_rule ("/" ++ w1 ++ p ++ "/" ++ w2 ++ r ++ "/" ++ f)
                  = parse_rule ("/" ++ p ++ "/" ++ r ++ "/" ++ f)).
  { unfold parse_rule, parseString.
    rewrite (expandtabs_rule p r ("/" ++ f) Htp Htr)
      by (simpl; now apply flags_have_no_tab).
    replace (expandtabs ("/" ++ w1 ++ p ++ "/" ++ w2 ++ r ++ "/" ++ f))
      with ("/" ++ w1 ++ p ++ "/" ++ w2 ++ r ++ "/" ++ f).
    - now rewrite (regexBNF_skips_white w1 p w2 r ("/" ++ f)
                                        Hw1 Hw2 Hbp Hp Hbr Hr eq_refl).
    - symmetry. apply expandtabs_from_no_tab.
      change ("/" ++ ?x) with (String "/" x). simpl.
      rewrite !all_chars_app. simpl. rewrite !all_chars_app. simpl.
      now rewrite Ht1, Htp, Ht2, Htr, (flags_have_no_tab _ Hf). }
  rewrite Hsame. destruct f as [|c f]; [exact Hnone|].
  apply Hsome; [assumption | discriminate].
Qed.

Lemma leading_white_space_and_tabs_are_lost_witness :
  all_chars white "" = true /\ all_chars white " " = true
  /\ parse_rule "/foo/ bar/" = Some ("foo", "bar")
  /\ parse_rule ("/a" ++ String TAB "b/c/") = Some ("a      b", "c").
Proof.
  split; [reflexivity|]. split; [reflexivity|].
  apply (leading_white_space_and_tabs_are_lost "" "foo" " " "bar" "");
    reflexivity.
Defined.

End Grammar.

(** ** The run *)

Section Run.
Context {engine : Re}.
Local Open Scope py_scope.

Lemma regexBNF_two_tokens (regex : string) (parsed : ParseResults) :
  parseString regexBNF regex = Some parsed ->
  exists p r flags, parsed = p :: r :: flags.
Proof.
  unfold parseString. generalize (expandtabs regex) as s. intros s H.
  destruct (_parse regexBNF s) as [[toks rest]|] eqn:E; [|discriminate].
  inversion H; subst. clear H.
  rewrite regexBNF_flag, !parse_And, parse_slash in E.
  destruct (preParse s) as [|c0 s1]; [discriminate|].
  destruct (Ascii.eqb c0 SLASH); [|discriminate].
  rewrite parse_Word in E.
  destruct (span pattern_char (preParse s1)) as [[|c1 w1] s2];
    [discriminate|].
  rewrite parse_slash in E.
  destruct (preParse s2) as [|c2 s3]; [discriminate|].
  destruct (Ascii.eqb c2 SLASH); [|discriminate].
  rewrite parse_Word in E.
  destruct (span pattern_char (preParse s3)) as [[|c3 w2] s4];
    [discriminate|].
  destruct (_parse (Optional _) s4) as [[t4 s5]|]; [|discriminate].
  destruct (_parse StringEnd s5) as [[t5 s6]|]; [|discriminate].
  inversion E; subst. simpl. eauto.
Qed.

Lemma parse_one_eq (regex : string) :
  parse_one regex =
  match parseString regexBNF regex with
  | Some parsed =>
      match rule_strings parsed with
      | Some (regex_str, replace_str) =>
          match compile regex_str with
          | Some pattern =>
              ([Replacing regex_str replace_str],
               inr (pattern, replace_str))
          | None =>
              ([Replacing regex_str replace_str], inl (re_error regex_str))
          end
      | None => ([], inl IndexError)
      end
  | None => ([Unable regex], inl (ParseException (expandtabs regex)))
  end.
Proof.
  unfold parse_one.
  destruct (parseString regexBNF regex) as [parsed|]; [|reflexivity].
  cbn [bind ret]. destruct (rule_strings parsed) as [[a b]|]; [|reflexivity].
  cbn [bind print]. destruct (compile a); reflexivity.
Qed.

Lemma parse_one_cases (regex : string) :
  (parseString regexBNF regex = None
   /\ parse_one regex
      = ([Unable regex], inl (ParseException (expandtabs regex))))
  \/ (exists regex_str replace_str,
         parse_rule regex = Some (regex_str, replace_str)
         /\ ((compile regex_str = None
              /\ parse_one regex
                 = ([Replacing regex_str replace_str],
                    inl (re_error regex_str)))
             \/ exists pattern,
                  compile regex_str = Some pattern
                  /\ parse_one regex
                     = ([Replacing regex_str replace_str],
                        inr (pattern, replace_str)))).
Proof.
  rewrite parse_one_eq. unfold parse_rule.
  destruct (parseString regexBNF regex) as [parsed|] eqn:E.
  - right. destruct (regexBNF_two_tokens _ _ E) as (p & r & flags & ->).
    destruct (rule_strings (p :: r :: flags)) as [[a b]|] eqn:Hrs.
    + exists a, b. split; [reflexivity|].
      destruct (compile a) as [pattern|]; [right; eauto | left; auto].
    + unfold rule_strings in Hrs.
      destruct (2 <? List.length (p :: r :: flags))%nat; discriminate.
  - left. split; reflexivity.
Qed.

Lemma parse_from_acc (regexes : list string) :
  forall results,
    parse_from results regexes =
    match parse_from [] regexes with
    | (out, inl e) => (out, inl e)
    | (out, inr rules) => (out, inr (results ++ rules)%list)
    end.
Proof.
  induction regexes as [|regex rest IH]; intros results.
  - simpl. unfold ret. now rewrite app_nil_r.
  - cbn [parse_from]. destruct (parse_one regex) as [out [e|r]];
      cbn [bind]; [reflexivity|].
    rewrite (IH (results ++ [r])%list), (IH ([] ++ [r])%list).
    destruct (parse_from [] rest) as [out' [e|rules]]; [reflexivity|].
    now rewrite <- app_assoc.
Qed.

Lemma _parse_regexes_cons (regex : string) (rest : list string) :
  _parse_regexes (regex :: rest) =
  (r <- parse_one regex ;;
   rules <- _parse_regexes rest ;;
   ret (r :: rules)).
Proof.
  unfold _parse_regexes. cbn [parse_from].
  destruct (parse_one regex) as [out [e|r]]; cbn [bind]; [reflexivity|].
  rewrite parse_from_acc.
  destruct (parse_from [] rest) as [out' [e|rules]]; simpl;
    now rewrite ?app_nil_r.
Qed.

(** A successful [_parse_regexes] announces every rule string and returns
    one rule for each, in the order given. *)
Lemma _parse_regexes_success (regexes : list string) :
  forall out rules,
    _parse_regexes regexes = (out, inr rules) ->
    Forall2 announces regexes out /\ Forall2 compiles_to regexes rules.
Proof.
  induction regexes as [|regex rest IH]; intros out rules H.
  - inversion H; subst. split; constructor.
  - rewrite _parse_regexes_cons in H.
    destruct (parse_one_cases regex)
      as [[_ E] | (a & b & Hab & [[_ E] | (pattern & Hc & E)])];
      rewrite E in H; cbn [bind] in H; try discriminate.
    destruct (_parse_regexes rest) as [out' [e|rules']]; cbn [bind ret] in H;
      [discriminate|].
    inversion H; subst. destruct (IH _ _ eq_refl) as [IH1 IH2].
    rewrite app_nil_r. split; constructor; auto.
    + exists a, b. auto.
    + exists a. auto.
Qed.

Lemma print_all_lines (lines : list line) :
  print_all lines = (lines, inr tt).
Proof.
  induction lines as [|l rest IH]; [reflexivity|].
  cbn [print_all bind print]. now rewrite IH.
Qed.

Lemma _process_calendar_eq (calendar : list Event)
      (start_date end_date : option instant) (allday : bool)
      (grouping_regex_strs : list string) :
  _process_calendar calendar start_date end_date allday grouping_regex_strs
  = match _parse_regexes grouping_regex_strs with
    | (out, inl e) => (Processing start_date end_date :: out, inl e)
    | (out, inr regexes) =>
        (Processing start_date end_date
           :: out ++ report (fst (aggregate calendar start_date end_date
                                            allday regexes)),
         inr tt)
    end.
Proof.
  unfold _process_calendar. cbn [bind print].
  destruct (_parse_regexes grouping_regex_strs) as [out [e|regexes]];
    cbn [bind]; [reflexivity|].
  destruct (aggregate calendar start_date end_date allday regexes)
    as [groups total_seconds].
  now rewrite print_all_lines.
Qed.

(** C5, as amended.  On a successful run the line "Processing events
    from X to Y" comes first, once; then one line per rule string, in the
    order given, each before any event is processed; then the lines of
    the report. *)
Theorem output_order (calendar : list Event)
        (start_date end_date : option instant) (allday : bool)
        (grouping_regex_strs : list string) :
  outcome (_process_calendar calendar start_date end_date allday
                             grouping_regex_strs) = inr tt ->
  exists announcements regexes,
    _parse_regexes grouping_regex_strs = (announcements, inr regexes)
    /\ Forall2 announces grouping_regex_strs announcements
    /\ stdout (_process_calendar calendar start_date end_date allday
                                 grouping_regex_strs) =
       (Processing start_date end_date
          :: announcements
          ++ report (fst (aggregate calendar start_date end_date allday
                                    regexes)))%list
    /\ forallb is_hours
         (report (fst (aggregate calendar start_date end_date allday
                                 regexes))) = true.
Proof.
  rewrite _process_calendar_eq.
  destruct (_parse_regexes grouping_regex_strs) as [out [e|regexes]] eqn:E;
    cbn [outcome snd stdout fst]; [discriminate|]. intros _.
  exists out, regexes. split; [reflexivity|].
  split; [exact (proj1 (_parse_regexes_success _ _ _ E))|].
  split; [reflexivity|].
  unfold report. induction (sorted_desc _); simpl; auto.
Qed.

(** C6 where the pattern of a rule is refused by [re.compile]: the run
    stops on [re.error] behind the line "Replacing ... with ..." of that
    rule; no line "Unable to parse regex" names the rule string. *)
Theorem compile_failure_is_not_reported (calendar : list Event)
        (start_date end_date : option instant) (allday : bool)
        (regex regex_str replace_str : string) :
  parse_rule regex = Some (regex_str, replace_str) ->
  compile regex_str = None ->
  _process_calendar calendar start_date end_date allday [regex]
  = ([Processing start_date end_date; Replacing regex_str replace_str],
     inl (re_error regex_str)).
Proof.
  intros Hrule Hc. rewrite _process_calendar_eq, _parse_regexes_cons.
  destruct (parse_one_cases regex)
    as [[Hnone _] | (a & b & Hab & [[_ E] | (pattern & Hp & _)])].
  - unfold parse_rule in Hrule. now rewrite Hnone in Hrule.
  - rewrite Hrule in Hab. inversion Hab; subst. now rewrite E.
  - rewrite Hrule in Hab. inversion Hab; subst. congruence.
Qed.

Lemma _parse_regexes_failure (regexes : list string) :
  forall out e,
    _parse_regexes regexes = (out, inl e) ->
    exists before regex rest announcements,
      regexes = (before ++ regex :: rest)%list
      /\ Forall2 announces before announcements
      /\ ((parseString regexBNF regex = None
           /\ e = ParseException (expandtabs regex)
           /\ out = (announcements ++ [Unable regex])%list)
          \/ exists regex_str replace_str,
               parse_rule regex = Some (regex_str, replace_str)
               /\ compile regex_str = None
               /\ e = re_error regex_str
               /\ out = (announcements
                           ++ [Replacing regex_str replace_str])%list).
Proof.
  induction regexes as [|regex rest IH]; intros out e H.
  - discriminate.
  - rewrite _parse_regexes_cons in H.
    destruct (parse_one_cases regex)
      as [[Hnone E] | (a & b & Hab & [[Hc E] | (pattern & Hc & E)])];
      rewrite E in H; cbn [bind] in H.
    + inversion H; subst. exists [], regex, rest, [].
      split; [reflexivity|]. split; [constructor|]. left. auto.
    + inversion H; subst. exists [], regex, rest, [].
      split; [reflexivity|]. split; [constructor|]. right.
      exists a, b. auto.
    + destruct (_parse_regexes rest) as [out' [e'|rules]] eqn:Erest;
        cbn [bind ret] in H; [|discriminate].
      inversion H; subst.
      destruct (IH _ _ eq_refl)
        as (before & bad & after & ann & -> & Hann & Hbad).
      exists (regex :: before), bad, after, (Replacing a b :: ann).
      split; [reflexivity|].
      split; [constructor; [exists a, b; auto | assumption]|].
      destruct Hbad as [(? & ? & ->) | (a' & b' & ? & ? & ? & ->)].
      * left. auto.
      * right. exists a', b'. auto.
Qed.

Lemma announcements_are_not_hours (regexes : list string)
      (announcements : list line) :
  Forall2 announces regexes announcements ->
  existsb is_hours announcements = false.
Proof.
  induction 1 as [|regex l regexes ls (a & b & _ & ->) _ IH];
    [reflexivity | exact IH].
Qed.

(** The part of C6 that holds.  When a rule string fails, the run stops
    with the exception of that rule string, no event has been processed
    and no line of the report is printed; a rule string that fails the
    grammar is named by the last line printed, "Unable to parse regex",
    and by the exception. *)
Lemma failed_rule_stops_the_run (calendar : list Event)
      (start_date end_date : option instant) (allday : bool)
      (grouping_regex_strs : list string) (e : exn) :
  let run := _process_calendar calendar start_date end_date allday
                               grouping_regex_strs in
  outcome (_parse_regexes grouping_regex_strs) = inl e ->
  outcome run = inl e
  /\ existsb is_hours (stdout run) = false
  /\ exists before regex rest,
       grouping_regex_strs = (before ++ regex :: rest)%list
       /\ ((parseString regexBNF regex = None
            /\ e = ParseException (expandtabs regex)
            /\ last (stdout run) (Unable "") = Unable regex)
           \/ exists regex_str replace_str,
                parse_rule regex = Some (regex_str, replace_str)
                /\ compile regex_str = None
                /\ e = re_error regex_str
                /\ last (stdout run) (Unable "")
                   = Replacing regex_str replace_str).
Proof.
  intros run. subst run. rewrite _process_calendar_eq.
  destruct (_parse_regexes grouping_regex_strs) as [out [e'|regexes]] eqn:E;
    cbn [outcome snd stdout fst]; [|discriminate].
  intros He. inversion He; subst e'. clear He.
  split; [reflexivity|].
  destruct (_parse_regexes_failure _ _ _ E)
    as (before & regex & rest & ann & -> & Hann & Hbad).
  pose proof (announcements_are_not_hours _ _ Hann) as Hnot.
  split.
  - cbn [existsb is_hours orb].
    destruct Hbad as [(_ & _ & ->) | (a & b & _ & _ & _ & ->)];
      rewrite existsb_app, Hnot; reflexivity.
  - exists before, regex, rest. split; [reflexivity|].
    destruct Hbad as [(? & ? & ->) | (a & b & ? & ? & ? & ->)].
    + left. repeat split; auto.
      change (Processing start_date end_date :: ann ++ [Unable regex])%list
        with ((Processing start_date end_date :: ann) ++ [Unable regex])%list.
      apply last_last.
    + right. exists a, b. repeat split; auto.
      change (Processing start_date end_date :: ann ++ [Replacing a b])%list
        with ((Processing start_date end_date :: ann)
                ++ [Replacing a b])%list.
      apply last_last.
Qed.

End Run.

(** ** The report *)

Section Report.
Context {engine : Re}.
Local Open Scope Z_scope.

Variables (start_date end_date : option instant) (allday : bool).
Variable regexes : list rule.


End Report.

(** ** The printout *)

Section Printout.
Context {engine : Re}.
Local Open Scope Z_scope.



End Printout.


(** ** The date arguments *)

(** A conversion that returns is left as it is by argparse. *)
Lemma _get_value_returns {A} (lib : Libraries)
      (argument type_name : string)
      (type_func : string -> exn + A) (arg_string : string) (a : A) :
  _get_value lib argument type_name type_func arg_string = inr a <->
  type_func arg_string = inr a.
Proof.
  unfold _get_value. destruct (type_func arg_string) as [e|]; [|tauto].
  split; [|discriminate].
  destruct e; try discriminate;
    destruct (is_TypeError_or_ValueError _ _); discriminate.
Qed.

Section Dates.
Variable arrow_get : string -> exn + instant.

Lemma _valid_date_returns (s : string) (d : instant) :
  arrow_get s = inr d -> _valid_date arrow_get s = inr d.
Proof. unfold _valid_date. now intros ->. Qed.

(** The one case in which [_valid_date] raises [ArgumentTypeError]. *)
Lemma _valid_date_TypeError (s : string) :
  arrow_get s = inl TypeError ->
  _valid_date arrow_get s
  = inl (ArgumentTypeError ("Not a valid date: '" ++ s ++ "'.")).
Proof. unfold _valid_date. now intros ->. Qed.

Lemma _valid_date_ArgumentTypeError (s msg : string) :
  _valid_date arrow_get s = inl (ArgumentTypeError msg) ->
  (arrow_get s = inl TypeError
   /\ msg = "Not a valid date: '" ++ s ++ "'.")
  \/ arrow_get s = inl (ArgumentTypeError msg).
Proof.
  unfold _valid_date. destruct (arrow_get s) as [[]|]; intros H;
    inversion H; auto.
Qed.

End Dates.

(** ** The options of the command line *)

Section Options.
Variable lib : Libraries.

(** Whether an option is refused, and with what, does not depend on the
    namespace. *)
Lemma take_action_raises (namespace namespace' : Namespace)
      (o : optional) (e : exn) :
  take_action lib namespace o = inl e ->
  take_action lib namespace' o = inl e.
Proof.
  destruct o as [s|s|s|s]; cbn [take_action].
  - destruct (_get_value _ _ _ (_valid_date (arrow_get lib)) s);
      [auto | discriminate].
  - destruct (_get_value _ _ _ (_valid_date (arrow_get lib)) s);
      [auto | discriminate].
  - destruct (_get_value _ _ _ (FileType lib) s); [auto | discriminate].
  - discriminate.
Qed.

Lemma take_action_returns (namespace namespace' : Namespace)
      (o : optional) (n : Namespace) :
  take_action lib namespace o = inr n ->
  exists n', take_action lib namespace' o = inr n'.
Proof.
  destruct o as [s|s|s|s]; cbn [take_action].
  - destruct (_get_value _ _ _ (_valid_date (arrow_get lib)) s);
      [discriminate | eauto].
  - destruct (_get_value _ _ _ (_valid_date (arrow_get lib)) s);
      [discriminate | eauto].
  - destruct (_get_value _ _ _ (FileType lib) s); [discriminate | eauto].
  - eauto.
Qed.

(** The options are read in the order of the command line: the first
    that is refused ends the reading with its exception. *)
Lemma consume_optionals_first_refusal (before after : list optional)
      (o : optional) (e : exn) :
  Forall (accepted lib) before ->
  take_action lib defaults o = inl e ->
  forall namespace,
    consume_optionals lib namespace (before ++ o :: after)
    = inl e.
Proof.
  intros Hbefore Ho.
  induction Hbefore as [|o' before [n Hn] _ IH]; intros namespace;
    cbn [app consume_optionals].
  - now rewrite (take_action_raises defaults namespace o e Ho).
  - destruct (take_action_returns defaults namespace o' n Hn) as [n' ->].
    apply IH.
Qed.

Lemma main_first_refusal {engine : Re} (argv : Argv)
      (before after : list optional) (o : optional) (e : exn) :
  optionals argv = (before ++ o :: after)%list ->
  Forall (accepted lib) before ->
  take_action lib defaults o = inl e ->
  main lib argv = ([], inl e).
Proof.
  intros Hargv Hbefore Ho. unfold main, parse_args.
  rewrite Hargv.
  now rewrite (consume_optionals_first_refusal before after o e Hbefore Ho).
Qed.

(** C9 on a date that the library refuses with its [ParserError]: the
    exception is not a [TypeError] and [_valid_date] lets it through.
    The run ends before anything is printed, without the message "Not a
    valid date": on the [ParserError] itself where that is a
    [RuntimeError], which argparse lets through as well, and in the usage
    error of an invalid value where it is a [ValueError].  The date is
    the string of [--startdate] or of [--enddate], behind options that
    are accepted. *)
Theorem parser_error_is_not_converted {engine : Re} (s : string)
        (argv : Argv) (before after : list optional) (o : optional)
        (argument : string) :
  arrow_get lib s = inl ParserError ->
  (o = opt_startdate s /\ argument = "-s/--startdate")
  \/ (o = opt_enddate s /\ argument = "-e/--enddate") ->
  optionals argv = (before ++ o :: after)%list ->
  Forall (accepted lib) before ->
  let run := main lib argv in
  _valid_date (arrow_get lib) s = inl ParserError
  /\ run
     = ([], inl (if ParserError_is_ValueError lib
                 then SystemExit 2 (invalid_value argument "_valid_date" s)
                 else ParserError))
  /\ outcome run
     <> inl (SystemExit 2 (argument_error
                             argument
                             ("Not a valid date: '" ++ s ++ "'."))).
Proof.
  intros Hget Ho Hargv Hbefore run.
  assert (Hvalid : _valid_date (arrow_get lib) s = inl ParserError).
  { unfold _valid_date. now rewrite Hget. }
  assert (Hrun : run
                 = ([], inl (if ParserError_is_ValueError lib
                             then SystemExit
                                    2 (invalid_value argument "_valid_date"
                                                     s)
                             else ParserError))).
  { apply (main_first_refusal argv before after o _ Hargv Hbefore).
    destruct Ho as [[-> ->] | [-> ->]]; cbn [take_action];
      unfold _get_value; rewrite Hvalid;
      cbn [is_TypeError_or_ValueError];
      now destruct (ParserError_is_ValueError lib). }
  split; [exact Hvalid|]. split; [exact Hrun|].
  rewrite Hrun. cbn [outcome snd].
  destruct (ParserError_is_ValueError lib); discriminate.
Qed.

End Options.

(** ** The small engine *)

Section MiniReFacts.
Import MiniRe.

Lemma parse_pattern_plain (s : string) :
  all_chars plain s = true -> parse_pattern s = Items (literal s).
Proof.
  induction s as [|c r IH]; [reflexivity|].
  cbn [all_chars]. intros H. apply andb_prop in H as [Hc Hr].
  unfold plain in Hc. apply negb_true_iff in Hc.
  cbn [parse_pattern literal].
  destruct (Ascii.eqb_spec c "*") as [->|_]; [discriminate|].
  destruct (Ascii.eqb_spec c ".") as [->|_]; [discriminate|].
  rewrite Hc. cbn [andb].
  destruct r as [|d r'].
  - reflexivity.
  - destruct (Ascii.eqb_spec d "*") as [->|Hd].
    + simpl in Hr. discriminate.
    + rewrite (IH Hr).
      destruct d as [[] [] [] [] [] [] [] []]; try reflexivity.
      now contradiction Hd.
Qed.

(** A plain pattern matches the names that begin with it: the match is
    tied to the start of the name and need not reach its end. *)
Lemma match_here_literal (p s : string) :
  match_here (literal p) s = String.prefix p s.
Proof.
  revert s. induction p as [|c p IH]; intros s; [now destruct s|].
  destruct s as [|d s]; [reflexivity|].
  cbn [literal match_here atom_matches String.prefix].
  rewrite IH. destruct (ascii_dec c d) as [->|Hne].
  - now rewrite Ascii.eqb_refl.
  - destruct (Ascii.eqb_spec d c); [congruence | reflexivity].
Qed.

Lemma plain_pattern_matches_prefix (p : string) :
  all_chars plain p = true ->
  exists pattern : Pattern,
    compile p = Some pattern
    /\ forall s, matches pattern s = String.prefix p s.
Proof.
  intros Hp. exists (literal p). cbn [compile matches engine].
  rewrite (parse_pattern_plain _ Hp). split; [reflexivity|].
  intros s. apply match_here_literal.
Qed.

End MiniReFacts.

(** ** The examples of the specification, run on the small engine *)

Module Examples.
Import MiniRe Samples.
Local Open Scope Z_scope.

Example foo_renames_foobaz :
  _group "foobaz" (rules_of ["/foo/bar/"]) = "bar"
  /\ _group "xfoobaz" (rules_of ["/foo/bar/"]) = "xfoobaz".
Proof. split; reflexivity. Qed.

Example first_rule_wins :
  _group "Meeting A" (rules_of ["/Meet.*/First/"; "/Meeting.*/Second/"])
  = "First".
Proof. reflexivity. Qed.

Example work_and_personal :
  aggregate meetings None None false
            (rules_of ["/Meeting.*/Work/"; "/Lunch.*/Personal/"])
  = ([("Work", 5400); ("Personal", 900)], 6300)
  /\ _process_calendar meetings None None false
                       ["/Meeting.*/Work/"; "/Lunch.*/Personal/"]
     = ([Processing None None;
         Replacing "Meeting.*" "Work"; Replacing "Lunch.*" "Personal";
         Hours "Work" (_total_hours 5400);
         Hours "Personal" (_total_hours 900)],
        inr tt)
  /\ Qred (_total_hours 5400) = (3 # 2)%Q
  /\ Qred (_total_hours 900) = (1 # 4)%Q.
Proof. repeat split. Qed.

Example onlyone_is_refused :
  _process_calendar meetings None None false ["/onlyone/"]
  = ([Processing None None; Unable "/onlyone/"],
     inl (ParseException "/onlyone/")).
Proof. reflexivity. Qed.

Example all_day_events_need_the_flag :
  let holiday := {| name := "Holiday"; begin := 0; end_ := 86400;
                    all_day := true; duration := 86400 |} in
  aggregate [holiday] None None false [] = ([], 0)
  /\ aggregate [holiday] None None true [] = ([("Holiday", 86400)], 86400).
Proof. split; reflexivity. Qed.

Example same_input_same_output :
  main old_arrow
       {| optionals := [opt_calendar "meetings.ics";
                        opt_startdate "1970-01-01";
                        opt_enddate "1970-01-02"];
          positionals := ["/Meeting.*/Work/"] |}
  = ([Processing (Some 0) (Some 86400); Replacing "Meeting.*" "Work";
      Hours "Work" (_total_hours 5400); Hours "Lunch" (_total_hours 900)],
     inr tt).
Proof. reflexivity. Qed.

Lemma included_event_feeds_one_group_witness :
  let rules := rules_of ["/Meeting.*/Work/"] in
  let before := [timed "Meeting A" 0 3600] in
  let event := timed "Meeting B" 7200 1800 in
  let rest := [timed "Lunch" 10800 900] in
  skipped None None false event = false
  /\ get (fst (aggregate (before ++ event :: rest) None None false rules))
         "Work"
     = get (fst (aggregate (before ++ rest) None None false rules)) "Work"
       + 1800.
Proof.
  intros rules before event rest. split; [reflexivity|].
  pose proof (included_event_feeds_one_group
                None None false rules before rest event eq_refl) as H.
  cbv zeta in H. exact (proj1 H).
Defined.


Lemma output_order_witness :
  outcome (_process_calendar meetings None None false
                             ["/Meeting.*/Work/"]) = inr tt
  /\ exists announcements regexes,
       _parse_regexes ["/Meeting.*/Work/"] = (announcements, inr regexes)
       /\ Forall2 announces ["/Meeting.*/Work/"] announcements
       /\ stdout (_process_calendar meetings None None false
                                    ["/Meeting.*/Work/"]) =
          (Processing None None
             :: announcements
             ++ report (fst (aggregate meetings None None false
                                       regexes)))%list
       /\ forallb is_hours
            (report (fst (aggregate meetings None None false regexes)))
          = true.
Proof.
  split; [reflexivity|].
  apply (output_order meetings None None false ["/Meeting.*/Work/"]).
  reflexivity.
Defined.

(** C5, as stated, fails: the first line of a successful run is the
    line "Processing events", not the line of a rule. *)
Lemma processing_line_comes_first :
  _process_calendar meetings None None false ["/Meeting.*/Work/"]
  = ([Processing None None; Replacing "Meeting.*" "Work";
      Hours "Work" (_total_hours 5400); Hours "Lunch" (_total_hours 900)],
     inr tt).
Proof. reflexivity. Qed.

Lemma compile_failure_is_not_reported_witness :
  parse_rule "/*/x/" = Some ("*", "x")
  /\ compile "*" = None
  /\ _process_calendar meetings None None false ["/*/x/"]
     = ([Processing None None; Replacing "*" "x"], inl (re_error "*")).
Proof.
  split; [reflexivity|]. split; [reflexivity|].
  apply (compile_failure_is_not_reported meetings None None false
                                         "/*/x/" "*" "x");
    reflexivity.
Defined.

Lemma parser_error_is_not_converted_witness :
  let argv := {| optionals := [opt_startdate "yesterday"];
                 positionals := [] |} in
  let run := main old_arrow argv in
  MiniArrow.get "yesterday" = inl ParserError
  /\ optionals argv = ([] ++ opt_startdate "yesterday" :: [])%list
  /\ _valid_date MiniArrow.get "yesterday" = inl ParserError
  /\ run = ([], inl ParserError)
  /\ outcome run
     <> inl (SystemExit 2 (argument_error
                             "-s/--startdate"
                             "Not a valid date: 'yesterday'.")).
Proof.
  intros argv run. split; [reflexivity|]. split; [reflexivity|].
  apply (parser_error_is_not_converted
           old_arrow "yesterday" argv [] []
           (opt_startdate "yesterday") "-s/--startdate");
    [reflexivity | now left | reflexivity | constructor].
Defined.

End Examples.

(** * Further properties of the script *)

(** ** The totals of the groups *)

Section Totals.
Context {engine : Re}.
Local Open Scope Z_scope.

Variables (start_date end_date : option instant) (allday : bool).
Variable regexes : list rule.

Lemma sum_perm (a b : list Z) : Permutation a b -> sum a = sum b.
Proof.
  unfold sum. induction 1; simpl; lia.
Qed.

Lemma filter_perm {A} (f : A -> bool) (a b : list A) :
  Permutation a b -> Permutation (filter f a) (filter f b).
Proof.
  induction 1 as [|x a b _ IH|x y a|a b c _ IH1 _ IH2]; simpl.
  - constructor.
  - destruct (f x); [now constructor | assumption].
  - destruct (f x), (f y); try apply Permutation_refl. apply perm_swap.
  - now transitivity (filter f b).
Qed.

(** X1.  At the end of the loop every group holds the sum of the
    durations of the included events that [_group] names after it; a name
    that no included event is given holds nothing. *)
Theorem group_total_is_sum_of_its_events (calendar : list Event)
        (key : string) :
  get (fst (aggregate calendar start_date end_date allday regexes)) key
  = sum (map duration
             (filter (counted_in start_date end_date allday regexes key)
                     calendar)).
Proof.
  unfold aggregate. rewrite fold_step_get. simpl. lia.
Qed.

(** X2.  The totals do not depend on the order of the events: two
    calendars with the same events give every group the same seconds, and
    the same [total_seconds]. *)
Theorem totals_do_not_depend_on_order (calendar calendar' : list Event) :
  Permutation calendar calendar' ->
  (forall key,
      get (fst (aggregate calendar start_date end_date allday regexes)) key
      = get (fst (aggregate calendar' start_date end_date allday regexes))
            key)
  /\ snd (aggregate calendar start_date end_date allday regexes)
     = snd (aggregate calendar' start_date end_date allday regexes).
Proof.
  intros Hperm. split.
  - intros key. unfold aggregate. rewrite !fold_step_get.
    f_equal. apply sum_perm, Permutation_map, filter_perm, Hperm.
  - unfold aggregate.
    destruct (fold_step_total start_date end_date allday regexes
                              calendar ([], 0) eq_refl) as [_ ->].
    destruct (fold_step_total start_date end_date allday regexes
                              calendar' ([], 0) eq_refl) as [_ ->].
    f_equal. apply sum_perm, Permutation_map, filter_perm, Hperm.
Qed.

(** X3.  The events of two calendars put one after the other give every
    group the sum of what each calendar gives it, and likewise for
    [total_seconds]. *)
Theorem totals_of_joined_calendars (calendar calendar' : list Event)
        (key : string) :
  get (fst (aggregate (calendar ++ calendar') start_date end_date allday
                      regexes)) key
  = get (fst (aggregate calendar start_date end_date allday regexes)) key
    + get (fst (aggregate calendar' start_date end_date allday regexes)) key
  /\ snd (aggregate (calendar ++ calendar') start_date end_date allday
                    regexes)
     = snd (aggregate calendar start_date end_date allday regexes)
       + snd (aggregate calendar' start_date end_date allday regexes).
Proof.
  unfold aggregate. split.
  - rewrite !fold_step_get, filter_app, map_app, sum_app. simpl. lia.
  - destruct (fold_step_total start_date end_date allday regexes
                              (calendar ++ calendar') ([], 0) eq_refl)
      as [_ ->].
    destruct (fold_step_total start_date end_date allday regexes
                              calendar ([], 0) eq_refl) as [_ ->].
    destruct (fold_step_total start_date end_date allday regexes
                              calendar' ([], 0) eq_refl) as [_ ->].
    rewrite filter_app, map_app, sum_app. simpl. lia.
Qed.

Lemma sum_cons (x : Z) (l : list Z) : sum (x :: l) = x + sum l.
Proof. reflexivity. Qed.

Lemma sum_filter_le (f g : Event -> bool) (calendar : list Event) :
  Forall (fun event => 0 <= duration event) calendar ->
  (forall event, g event = true -> f event = true) ->
  0 <= sum (map duration (filter g calendar))
    <= sum (map duration (filter f calendar)).
Proof.
  intros Hpos Hsub.
  induction Hpos as [|event rest Hd _ IH]; cbn [filter map];
    [unfold sum; simpl; lia|].
  destruct (g event) eqn:Eg.
  - rewrite (Hsub _ Eg). cbn [map]. rewrite !sum_cons. lia.
  - destruct (f event); cbn [map]; rewrite ?sum_cons; lia.
Qed.

(** X17.  When no event has a negative duration, no group has a negative
    total and no group has more than [total_seconds]. *)
Theorem groups_are_within_the_total (calendar : list Event) (key : string) :
  Forall (fun event => 0 <= duration event) calendar ->
  0 <= get (fst (aggregate calendar start_date end_date allday regexes)) key
    <= snd (aggregate calendar start_date end_date allday regexes).
Proof.
  intros Hpos. unfold aggregate. rewrite fold_step_get.
  destruct (fold_step_total start_date end_date allday regexes
                            calendar ([], 0) eq_refl) as [_ ->].
  cbn [fst snd get].
  pose proof (sum_filter_le (included start_date end_date allday)
                (counted_in start_date end_date allday regexes key)
                calendar Hpos) as H.
  assert (Hsub : forall event,
             counted_in start_date end_date allday regexes key event = true ->
             included start_date end_date allday event = true).
  { intros event Hc. unfold counted_in in Hc.
    now apply andb_prop in Hc as [Hc _]. }
  specialize (H Hsub). lia.
Qed.

End Totals.

(** ** The order of the report *)

Section Order.
Context {engine : Re}.
Local Open Scope Z_scope.

Variables (start_date end_date : option instant) (allday : bool).
Variable regexes : list rule.

Lemma keys_add_eq (groups : dict) (key : string) (seconds : Z) :
  keys (add groups key seconds)
  = if seen key (keys groups) then keys groups
    else (keys groups ++ [key])%list.
Proof.
  unfold keys, seen.
  induction groups as [|[k v] rest IH]; simpl; [reflexivity|].
  rewrite (String.eqb_sym key k).
  destruct (String.eqb k key); simpl; [reflexivity|].
  rewrite IH. now destruct (existsb (String.eqb key) (map fst rest)).
Qed.

Lemma filter_filter_comm {A} (f g : A -> bool) (l : list A) :
  filter f (filter g l) = filter g (filter f l).
Proof.
  induction l as [|x l IH]; simpl; [reflexivity|].
  destruct (f x) eqn:Ef, (g x) eqn:Eg; simpl; rewrite ?Ef, ?Eg, IH;
    reflexivity.
Qed.

Lemma filter_id_in {A} (f : A -> bool) (l : list A) :
  (forall y, In y l -> f y = true) -> filter f l = l.
Proof.
  induction l as [|x l IH]; intros H; simpl; [reflexivity|].
  rewrite (H x (or_introl eq_refl)), IH; [reflexivity|].
  intros y Hy. apply H. now right.
Qed.

Lemma filter_and {A} (f g : A -> bool) (l : list A) :
  filter f (filter g l) = filter (fun y => f y && g y) l.
Proof.
  induction l as [|x l IH]; simpl; [reflexivity|].
  destruct (g x) eqn:Eg; simpl; rewrite ?Eg, IH.
  - rewrite andb_true_r. reflexivity.
  - now rewrite andb_false_r.
Qed.

Lemma seen_app (key : string) (a b : list string) :
  seen key (a ++ b) = seen key a || seen key b.
Proof. apply existsb_app. Qed.

(** The keys after the loop has gone over [names], from the keys [ks]. *)
Lemma first_seen_from (names : list string) :
  forall ks : list string,
    fold_left (fun ks key => if seen key ks then ks else (ks ++ [key])%list)
              names ks
    = (ks ++ filter (fun key => negb (seen key ks)) (first_seen names))%list.
Proof.
  induction names as [|x rest IH]; intros ks; cbn [fold_left first_seen].
  - simpl. now rewrite app_nil_r.
  - rewrite IH. cbn [filter]. destruct (seen x ks) eqn:E; cbn [negb].
    + f_equal. rewrite filter_filter_comm. symmetry.
      apply filter_id_in. intros y Hy. apply filter_In in Hy as [_ Hy].
      destruct (String.eqb_spec x y) as [<-|_]; [|reflexivity].
      now rewrite E in Hy.
    + rewrite <- app_assoc. cbn [app]. f_equal. f_equal.
      rewrite filter_and. apply filter_ext. intros y.
      rewrite seen_app. cbn [seen existsb].
      now rewrite orb_false_r, negb_orb, (String.eqb_sym y x).
Qed.

Lemma fold_step_keys_eq (calendar : list Event) :
  forall st : dict * Z,
    keys (fst (fold_left (step start_date end_date allday regexes)
                         calendar st))
    = fold_left (fun ks key => if seen key ks then ks else (ks ++ [key])%list)
                (map (fun event => _group (name event) regexes)
                     (filter (included start_date end_date allday)
                             calendar))
                (keys (fst st)).
Proof.
  induction calendar as [|event rest IH]; intros st;
    cbn [fold_left filter]; [reflexivity|].
  rewrite IH. destruct st as [groups total_seconds]. unfold included at 2.
  destruct (skipped start_date end_date allday event) eqn:E; cbn [negb].
  - now rewrite (step_skipped _ _ _ _ _ _ E).
  - rewrite (step_included _ _ _ _ _ _ _ E). cbn [fst map fold_left].
    now rewrite keys_add_eq.
Qed.

(** X4.  The groups stand in the order in which the loop first meets
    them: their names are the names that [_group] gives to the included
    events, in the order of the calendar, each kept where it comes first. *)
Theorem groups_are_in_first_seen_order (calendar : list Event) :
  keys (fst (aggregate calendar start_date end_date allday regexes))
  = first_seen (map (fun event => _group (name event) regexes)
                    (filter (included start_date end_date allday)
                            calendar)).
Proof.
  unfold aggregate. rewrite fold_step_keys_eq, first_seen_from.
  cbn [fst keys map app seen existsb negb].
  induction (first_seen _) as [|x l IH]; simpl; congruence.
Qed.

(** X16.  The loop never removes a group nor moves one: the groups after
    the events of a calendar are still there, in the same order and in
    front of the new ones, after the events of a longer calendar. *)
Theorem groups_only_grow (calendar calendar' : list Event) :
  exists new_keys,
    keys (fst (aggregate (calendar ++ calendar') start_date end_date allday
                         regexes))
    = (keys (fst (aggregate calendar start_date end_date allday regexes))
         ++ new_keys)%list
    /\ forall key,
         In key new_keys ->
         ~ In key (keys (fst (aggregate calendar start_date end_date allday
                                        regexes))).
Proof.
  unfold aggregate. rewrite fold_left_app, fold_step_keys_eq, first_seen_from.
  eexists. split; [reflexivity|].
  intros key Hin Hold. apply filter_In in Hin as [_ Hnot].
  apply negb_true_iff in Hnot.
  assert (seen key (keys (fst (fold_left
            (step start_date end_date allday regexes) calendar ([], 0))))
          = true) as Hseen.
  { apply existsb_exists. exists key. split; [assumption|].
    apply String.eqb_refl. }
  congruence.
Qed.

End Order.

Section Stability.
Local Open Scope Z_scope.

Lemma insert_desc_tied (seconds : Z) (item : string * Z)
      (l : list (string * Z)) :
  filter (tied seconds) (insert_desc item l)
  = filter (tied seconds) (item :: l).
Proof.
  induction l as [|y ys IH]; [reflexivity|].
  cbn [insert_desc]. destruct (Z.leb_spec (snd y) (snd item)) as [_|Hlt];
    [reflexivity|].
  cbn [filter] in *. rewrite IH. unfold tied.
  destruct (Z.eqb_spec (snd item) seconds), (Z.eqb_spec (snd y) seconds);
    try reflexivity. lia.
Qed.

(** X5.  The sort of the report is stable: the groups with the same
    seconds come out in the order in which they stand in [groups], which
    is the order in which they were first seen. *)
Theorem ties_keep_their_order (groups : dict) (seconds : Z) :
  filter (tied seconds) (sorted_desc groups) = filter (tied seconds) groups.
Proof.
  induction groups as [|item rest IH]; [reflexivity|].
  cbn [sorted_desc fold_right]. fold (sorted_desc rest).
  rewrite insert_desc_tied. cbn [filter]. now rewrite IH.
Qed.

(** X6.  The hours shown go down the report without ever going up: no
    line shows more hours than the line above it. *)
Theorem hours_never_increase (groups : dict) :
  StronglySorted (fun above below => (line_hours below <= line_hours above)%Q)
                 (report groups).
Proof.
  unfold report. pose proof (sorted_desc_sorted groups) as Hs.
  induction Hs as [|item l _ IH Hall]; cbn [map]; constructor.
  - exact IH.
  - apply Forall_map. revert Hall. apply Forall_impl.
    intros below Hle. cbn [line_hours]. now apply _total_hours_le.
Qed.

(** X18.  The hours of a positive number of seconds are a float: 53
    bits, the first of them at the power of two that the exact quotient
    of the seconds by 3600 reaches, and at most half a unit of the last
    bit away from that quotient. *)
Theorem hours_are_the_nearest_float (seconds : Z) :
  0 < seconds ->
  let x := (inject_Z seconds / 3600)%Q in
  let e := Binary64.exponent x in
  (2 ^ e <= x)%Q /\ (x < 2 ^ (e + 1))%Q
  /\ exists m : Z,
       2 ^ 52 <= m <= 2 ^ 53
       /\ _total_hours seconds = (inject_Z m * 2 ^ (e - 52))%Q
       /\ (_total_hours seconds - 2 ^ (e - 53) <= x)%Q
       /\ (x <= _total_hours seconds + 2 ^ (e - 53))%Q.
Proof.
  intros Hs x e.
  assert (Hx : (0 < x)%Q).
  { subst x. destruct seconds as [|p|p]; try lia. reflexivity. }
  assert (Hround : _total_hours seconds = Binary64.round_pos x).
  { subst x. destruct seconds as [|p|p]; try lia. reflexivity. }
  rewrite Hround.
  destruct (exponent_spec x Hx) as [H1 H2].
  split; [exact H1|]. split; [exact H2|].
  exact (round_pos_near x Hx).
Qed.

End Stability.

Section Ranges.
Local Open Scope Z_scope.

(** X7.  A wider range keeps what a narrower one keeps: an event that is
    not skipped stays so when the start boundary moves back or is dropped,
    when the end boundary moves forward or is dropped, and when all-day
    events are asked for. *)
Theorem wider_range_keeps_events (start_date end_date : option instant)
        (start_date' end_date' : option instant) (allday : bool)
        (event : Event) :
  start_not_after start_date' start_date ->
  end_not_before end_date' end_date ->
  skipped start_date end_date allday event = false ->
  skipped start_date' end_date' allday event = false
  /\ skipped start_date' end_date' true event = false.
Proof.
  intros Hstart Hend Hkept.
  split; apply not_true_is_false; intros Hskip;
    apply skipped_true_iff in Hskip;
    apply not_true_iff_false in Hkept; apply Hkept;
    apply skipped_true_iff;
    (destruct Hskip as [[Ha Hb] | [(d & -> & Hd) | (d & -> & Hd)]];
     [first [discriminate | left; now split]
     | right; left; destruct start_date as [s|]; [|contradiction];
       exists s; split; [reflexivity | simpl in Hstart; lia]
     | right; right; destruct end_date as [e|]; [|contradiction];
       exists e; split; [reflexivity | simpl in Hend; lia]]).
Qed.

End Ranges.

(** ** The rules of a run *)

Section Rules_of_a_run.
Context {engine : Re}.
Local Open Scope py_scope.

Lemma usable_parse_one (regex : string) :
  usable regex <-> exists out r, parse_one regex = (out, inr r).
Proof.
  split.
  - intros (a & b & Hab & Hc).
    destruct (parse_one_cases regex)
      as [[Hnone _] | (a' & b' & Hab' & [[Hc' _] | (pattern & _ & E)])].
    + unfold parse_rule in Hab. now rewrite Hnone in Hab.
    + rewrite Hab in Hab'. inversion Hab'; subst. contradiction.
    + eauto.
  - intros (out & r & H).
    destruct (parse_one_cases regex)
      as [[_ E] | (a & b & Hab & [[_ E] | (pattern & Hc & _)])];
      try (rewrite E in H; discriminate).
    exists a, b. split; [assumption | congruence].
Qed.

Lemma _parse_regexes_usable (regexes : list string) :
  Forall usable regexes <->
  exists out rules, _parse_regexes regexes = (out, inr rules).
Proof.
  induction regexes as [|regex rest IH].
  - split; [intros _; now exists [], [] | constructor].
  - rewrite _parse_regexes_cons. split.
    + intros H. inversion H as [|? ? Hu Hrest]; subst.
      apply usable_parse_one in Hu as (out & r & ->).
      apply IH in Hrest as (out' & rules & ->).
      cbn [bind ret]. eauto.
    + intros (out & rules & H).
      destruct (parse_one regex) as [o [e|r]] eqn:E; cbn [bind] in H;
        [discriminate|].
      destruct (_parse_regexes rest) as [o' [e|rules']] eqn:E';
        cbn [bind ret] in H; [discriminate|].
      constructor.
      * apply usable_parse_one. eauto.
      * apply IH. eauto.
Qed.

(** X8.  [_parse_regexes] returns its rules exactly when every rule
    string passes the grammar and has a regex that compiles; of no rule
    string it makes no rule and prints nothing; and a run of
    [_process_calendar] that ends normally had only such rule strings. *)
Theorem rules_are_parsed_iff_usable (grouping_regex_strs : list string) :
  ((exists out rules,
       _parse_regexes grouping_regex_strs = (out, inr rules))
   <-> Forall usable grouping_regex_strs)
  /\ _parse_regexes [] = ([], inr [])
  /\ (forall calendar start_date end_date allday,
        outcome (_process_calendar calendar start_date end_date allday
                                   grouping_regex_strs) = inr tt ->
        Forall usable grouping_regex_strs).
Proof.
  split; [symmetry; apply _parse_regexes_usable|].
  split; [reflexivity|].
  intros calendar start_date end_date allday.
  rewrite _parse_regexes_usable, _process_calendar_eq.
  destruct (_parse_regexes grouping_regex_strs) as [out [e|rules]];
    cbn [outcome snd]; intros H; [discriminate | eauto].
Qed.

(** X9.  The rules that a successful [_parse_regexes] returns are as many
    as the rule strings and in their order, each with the compiled regex
    and the replacement of its rule string; and one line is printed per
    rule string, in the same order. *)
Theorem parsed_rules_keep_order (regexes : list string) (out : list line)
        (rules : list rule) :
  _parse_regexes regexes = (out, inr rules) ->
  List.length rules = List.length regexes
  /\ List.length out = List.length regexes
  /\ Forall2 compiles_to regexes rules
  /\ Forall2 announces regexes out.
Proof.
  intros H. destruct (_parse_regexes_success _ _ _ H) as [Hann Hcomp].
  repeat split; try assumption.
  - symmetry. eapply Forall2_length, Hcomp.
  - symmetry. eapply Forall2_length, Hann.
Qed.

Lemma _parse_regexes_first_failure (regexes : list string) :
  forall out e,
    _parse_regexes regexes = (out, inl e) ->
    exists before bad rest ann rules last_line,
      regexes = (before ++ bad :: rest)%list
      /\ _parse_regexes before = (ann, inr rules)
      /\ parse_one bad = (last_line, inl e)
      /\ out = (ann ++ last_line)%list.
Proof.
  induction regexes as [|regex rest IH]; intros out e H; [discriminate|].
  rewrite _parse_regexes_cons in H.
  destruct (parse_one regex) as [o [e'|r]] eqn:E; cbn [bind] in H.
  - inversion H; subst. exists [], regex, rest, [], []. eexists.
    split; [reflexivity|]. split; [reflexivity|].
    split; [exact E | reflexivity].
  - destruct (_parse_regexes rest) as [o' [e'|rules']] eqn:E';
      cbn [bind ret] in H; [|discriminate].
    inversion H; subst.
    destruct (IH _ _ eq_refl)
      as (before & bad & after & ann & rules & l & -> & Hb & Hbad & ->).
    exists (regex :: before), bad, after, (o ++ ann)%list, (r :: rules), l.
    split; [reflexivity|]. split; [|split; [assumption|]].
    + rewrite _parse_regexes_cons, E, Hb. cbn [bind ret].
      now rewrite app_nil_r.
    + now rewrite app_assoc.
Qed.

Lemma _parse_regexes_stops (before : list string) :
  forall bad rest ann rules last_line e,
    _parse_regexes before = (ann, inr rules) ->
    parse_one bad = (last_line, inl e) ->
    _parse_regexes (before ++ bad :: rest) = ((ann ++ last_line)%list, inl e).
Proof.
  induction before as [|regex before IH];
    intros bad rest ann rules l e Hb Hbad.
  - inversion Hb; subst. cbn [app].
    now rewrite _parse_regexes_cons, Hbad.
  - cbn [app]. rewrite _parse_regexes_cons in *.
    destruct (parse_one regex) as [o [e'|r]]; cbn [bind] in *;
      [discriminate|].
    destruct (_parse_regexes before) as [o' [e'|rules']] eqn:E';
      cbn [bind ret] in Hb; [discriminate|].
    inversion Hb; subst.
    rewrite (IH bad rest o' rules' l e eq_refl Hbad). cbn [bind].
    now rewrite app_nil_r, app_assoc.
Qed.

(** X10.  When [_parse_regexes] raises, it has stopped at the first rule
    string that is not usable: the rule strings before it are usable,
    the exception is the [ParseException] of that rule string, which the
    grammar refuses, or the [re.error] of the regex of that rule string,
    which does not compile, never an [IndexError]; the rule strings
    after it play no part in what is printed and raised, and a run of
    [_process_calendar] with these rule strings ends on the same
    exception behind the same lines, whatever the calendar. *)
Theorem rules_stop_at_first_bad_rule (grouping_regex_strs : list string)
        (out : list line) (e : exn) :
  _parse_regexes grouping_regex_strs = (out, inl e) ->
  exists before bad rest,
    grouping_regex_strs = (before ++ bad :: rest)%list
    /\ Forall usable before
    /\ ~ usable bad
    /\ ((parseString regexBNF bad = None
         /\ e = ParseException (expandtabs bad))
        \/ exists regex_str replace_str,
             parse_rule bad = Some (regex_str, replace_str)
             /\ compile regex_str = None
             /\ e = re_error regex_str)
    /\ forall rest',
         _parse_regexes (before ++ bad :: rest') = (out, inl e)
         /\ forall calendar start_date end_date allday,
              _process_calendar calendar start_date end_date allday
                                (before ++ bad :: rest')
              = (Processing start_date end_date :: out, inl e).
Proof.
  intros E.
  destruct (_parse_regexes_first_failure _ _ _ E)
    as (before & bad & rest & ann & rules & l & -> & Hb & Hbad & ->).
  exists before, bad, rest. split; [reflexivity|].
  split; [apply _parse_regexes_usable; eauto|].
  split.
  { intros Hu. apply usable_parse_one in Hu as (o & r & Hu).
    rewrite Hu in Hbad. discriminate. }
  split.
  { destruct (parse_one_cases bad)
      as [[Hnone E1] | (a & b & Hab & [[Hc E1] | (pattern & _ & E1)])];
      rewrite E1 in Hbad; inversion Hbad; subst.
    - left. auto.
    - right. exists a, b. auto. }
  intros rest'.
  pose proof (_parse_regexes_stops before bad rest' ann rules l e Hb Hbad)
    as Hstop.
  split; [exact Hstop|].
  intros calendar start_date end_date allday.
  now rewrite _process_calendar_eq, Hstop.
Qed.

End Rules_of_a_run.

(** ** The renaming *)

Section Renaming.
Context {engine : Re}.

(** X11.  Rules put behind other rules only name what those leave
    unnamed: over two lists of rules one after the other, [_group] is
    [_group] over the first list for a name that one of its rules
    matches, and [_group] over the second list for any other name. *)
Theorem later_rules_only_name_the_rest (s : string)
        (rules rules' : list rule) :
  _group s (rules ++ rules')
  = if any_matches s rules then _group s rules else _group s rules'.
Proof.
  induction rules as [|[pattern replacement] rest IH]; [reflexivity|].
  cbn [app _group any_matches existsb fst].
  destruct (matches pattern s); [reflexivity | exact IH].
Qed.

End Renaming.

(** ** The command line *)

Section Command_line.
Context {engine : Re}.
Variable lib : Libraries.

(** What an option that is accepted stores. *)
Lemma accepted_take_action (namespace : Namespace) (o : optional) :
  accepted lib o ->
  match o with
  | opt_startdate s =>
      exists d,
        _valid_date (arrow_get lib) s = inr d
        /\ take_action lib namespace o
           = inr {| startdate := Some d;
                    enddate := enddate namespace;
                    calendar := calendar namespace;
                    allday := allday namespace;
                    regexes := regexes namespace |}
  | opt_enddate s =>
      exists d,
        _valid_date (arrow_get lib) s = inr d
        /\ take_action lib namespace o
           = inr {| startdate := startdate namespace;
                    enddate := Some d;
                    calendar := calendar namespace;
                    allday := allday namespace;
                    regexes := regexes namespace |}
  | opt_calendar s =>
      exists f,
        FileType lib s = inr f
        /\ take_action lib namespace o
           = inr {| startdate := startdate namespace;
                    enddate := enddate namespace;
                    calendar := Some f;
                    allday := allday namespace;
                    regexes := regexes namespace |}
  | opt_allday s =>
      take_action lib namespace o
      = inr {| startdate := startdate namespace;
               enddate := enddate namespace;
               calendar := calendar namespace;
               allday := allday_value (Some s);
               regexes := regexes namespace |}
  end.
Proof.
  intros [n Hn]. destruct o as [s|s|s|s]; cbn [take_action] in *.
  - destruct (_get_value _ _ _ (_valid_date (arrow_get lib)) s) as [e|d] eqn:E;
      [discriminate|].
    apply _get_value_returns in E. eauto.
  - destruct (_get_value _ _ _ (_valid_date (arrow_get lib)) s) as [e|d] eqn:E;
      [discriminate|].
    apply _get_value_returns in E. eauto.
  - destruct (_get_value _ _ _ (FileType lib) s) as [e|f] eqn:E; [discriminate|].
    apply _get_value_returns in E. eauto.
  - reflexivity.
Qed.

(** The namespace behind options that are all accepted: every value is
    that of the last option of its kind, or the one from before. *)
Lemma consume_optionals_accepted (options : list optional) :
  Forall (accepted lib) options ->
  forall namespace,
  exists namespace',
    consume_optionals lib namespace options = inr namespace'
    /\ match last_string startdate_string options with
       | Some s =>
           exists d,
             _valid_date (arrow_get lib) s = inr d
             /\ startdate namespace' = Some d
       | None => startdate namespace' = startdate namespace
       end
    /\ match last_string enddate_string options with
       | Some s =>
           exists d,
             _valid_date (arrow_get lib) s = inr d /\ enddate namespace' = Some d
       | None => enddate namespace' = enddate namespace
       end
    /\ match last_string calendar_string options with
       | Some s =>
           exists f, FileType lib s = inr f /\ calendar namespace' = Some f
       | None => calendar namespace' = calendar namespace
       end
    /\ allday namespace'
       = match last_string allday_string options with
         | Some s => allday_value (Some s)
         | None => allday namespace
         end
    /\ regexes namespace' = regexes namespace.
Proof.
  induction 1 as [|o rest Ho _ IH]; intros namespace.
  - exists namespace. cbn [consume_optionals last_string].
    repeat split; reflexivity.
  - pose proof (accepted_take_action namespace o Ho) as Htake.
    cbn [consume_optionals last_string].
    destruct o as [s|s|s|s];
      [destruct Htake as (d & Hd & ->) | destruct Htake as (d & Hd & ->)
       | destruct Htake as (f & Hf & ->) | rewrite Htake];
      match goal with
      | |- context [consume_optionals _ ?n rest] =>
          destruct (IH n) as (n' & -> & H1 & H2 & H3 & H4 & H5)
      end;
      exists n'; cbn [startdate enddate calendar allday regexes] in *;
      (split; [reflexivity|]);
      destruct (last_string startdate_string rest),
               (last_string enddate_string rest),
               (last_string calendar_string rest),
               (last_string allday_string rest);
      cbn [startdate_string enddate_string calendar_string allday_string];
      repeat split; eauto.
Qed.

(** Every command line has a first option that is refused, or none. *)
Lemma first_refusal_or_none (options : list optional) :
  Forall (accepted lib) options
  \/ exists before o after e,
       options = (before ++ o :: after)%list
       /\ Forall (accepted lib) before
       /\ take_action lib defaults o = inl e.
Proof.
  induction options as [|o rest IH]; [left; constructor|].
  destruct (take_action lib defaults o) as [e|n] eqn:E.
  - right. exists [], o, rest, e. repeat split; [constructor | exact E].
  - assert (Ho : accepted lib o) by (exists n; exact E).
    destruct IH as [IH | (before & o' & after & e & -> & Hb & He)].
    + left. now constructor.
    + right. exists (o :: before), o', after, e.
      repeat split; [now constructor | exact He].
Qed.

(** X12.  [main] converts the options in the order of the command line.
    The first option whose string is refused ends the run before anything
    is printed: a date that [arrow.get] refuses with a [TypeError] or a
    [ValueError] ends it with the status 2 of a usage error, the first
    with the message "Not a valid date", and one that it refuses with
    its [ParserError] ends it with that exception, or like a
    [ValueError] where [ParserError] is one.  When every option is
    accepted, a command line without [--calendar] ends in a usage error,
    and otherwise [_process_calendar] is called with the values of the
    last option of each kind, with [False] for no [--allday], and with
    the positional arguments. *)
Theorem main_reads_the_options_in_order (argv : Argv) :
  (forall before o after e,
      optionals argv = (before ++ o :: after)%list ->
      Forall (accepted lib) before ->
      take_action lib defaults o = inl e ->
      main lib argv = ([], inl e))
  /\ (forall namespace o s argument,
        (o = opt_startdate s /\ argument = "-s/--startdate")
        \/ (o = opt_enddate s /\ argument = "-e/--enddate") ->
        (arrow_get lib s = inl TypeError ->
         take_action lib namespace o
         = inl (SystemExit 2 (argument_error
                                argument
                                ("Not a valid date: '" ++ s ++ "'."))))
        /\ (arrow_get lib s = inl ValueError ->
            take_action lib namespace o
            = inl (SystemExit 2 (invalid_value argument "_valid_date" s)))
        /\ (arrow_get lib s = inl ParserError ->
            take_action lib namespace o
            = inl (if ParserError_is_ValueError lib
                   then SystemExit 2 (invalid_value argument "_valid_date"
                                                    s)
                   else ParserError)))
  /\ (Forall (accepted lib) (optionals argv) ->
      exists start_date end_date,
        converts (arrow_get lib)
                 (last_string startdate_string (optionals argv)) start_date
        /\ converts (arrow_get lib)
                    (last_string enddate_string (optionals argv)) end_date
        /\ match last_string calendar_string (optionals argv) with
           | None =>
               main lib argv
               = ([], inl (SystemExit 2
                             (required_arguments "-c/--calendar")))
           | Some path =>
               exists events,
                 FileType lib path = inr events
                 /\ main lib argv
                    = _process_calendar
                        events start_date end_date
                        (allday_value
                           (last_string allday_string (optionals argv)))
                        (positionals argv)
           end)
  /\ (Forall (accepted lib) (optionals argv)
      \/ exists before o after e,
           optionals argv = (before ++ o :: after)%list
           /\ Forall (accepted lib) before
           /\ take_action lib defaults o = inl e).
Proof.
  split; [intros before o after e; apply main_first_refusal|].
  split.
  { intros namespace o s argument Ho.
    repeat split; intros Hget;
      destruct Ho as [[-> ->] | [-> ->]];
      cbn [take_action]; unfold _get_value, _valid_date;
      rewrite Hget; cbn [is_TypeError_or_ValueError];
      try reflexivity; now destruct (ParserError_is_ValueError lib). }
  split; [|apply first_refusal_or_none].
  intros Hall.
  destruct (consume_optionals_accepted (optionals argv) Hall defaults)
    as (n & Hn & H1 & H2 & H3 & H4 & H5).
  exists (startdate n), (enddate n).
  split.
  { destruct (last_string startdate_string (optionals argv));
      cbn [converts]; [|exact H1].
    destruct H1 as (d & Hd & ->). eauto. }
  split.
  { destruct (last_string enddate_string (optionals argv));
      cbn [converts]; [|exact H2].
    destruct H2 as (d & Hd & ->). eauto. }
  unfold main, parse_args. rewrite Hn.
  destruct (last_string calendar_string (optionals argv)) as [path|].
  - destruct H3 as (f & Hf & Hc). exists f. split; [exact Hf|].
    rewrite Hc. cbn [calendar startdate enddate allday regexes].
    rewrite H4.
    now destruct (last_string allday_string (optionals argv)).
  - rewrite H3. reflexivity.
Qed.

End Command_line.

(** ** The whole of the rule grammar *)

Section Whole_grammar.

Lemma string_app_assoc (a b c : string) : (a ++ b) ++ c = a ++ b ++ c.
Proof. induction a; simpl; congruence. Qed.

Lemma preParse_cases (s : string) :
  (preParse s = "" /\ all_chars white s = true)
  \/ exists w c r,
       s = w ++ String c r /\ all_chars white w = true
       /\ white c = false /\ preParse s = String c r.
Proof.
  induction s as [|c s IH]; [now left|].
  cbn [preParse all_chars]. destruct (white c) eqn:E; cbn [andb].
  - destruct IH as [[H1 H2] | (w & d & r & -> & Hw & Hd & Hp)].
    + now left.
    + right. exists (String c w), d, r. cbn [all_chars append].
      now rewrite E, Hw.
  - right. exists "", c, s. auto.
Qed.

Lemma white_not_flag (c : ascii) : white c = true -> flag_char c = false.
Proof.
  intros Hw. destruct (flag_char c) eqn:E; [|reflexivity].
  apply flag_char_not_white in E. congruence.
Qed.

Lemma white_is_pattern_char (c : ascii) :
  white c = true -> pattern_char c = true.
Proof.
  unfold pattern_char, white, SPACE, LF, TAB, CR, SLASH.
  destruct (Ascii.eqb_spec c " ") as [->|_]; [reflexivity|].
  destruct (Ascii.eqb_spec c "010") as [->|_]; [reflexivity|].
  destruct (Ascii.eqb_spec c "009") as [->|_]; [reflexivity|].
  destruct (Ascii.eqb_spec c "013") as [->|_]; [reflexivity|discriminate].
Qed.

Lemma keep_app (ok : ascii -> bool) (a b : string) :
  keep ok (a ++ b) = keep ok a ++ keep ok b.
Proof.
  induction a as [|c a IH]; simpl; [reflexivity|].
  destruct (ok c); simpl; now rewrite IH.
Qed.

Lemma keep_flag_white (w : string) :
  all_chars white w = true -> keep flag_char w = "".
Proof.
  induction w as [|c w IH]; simpl; [reflexivity|].
  intros H. apply andb_prop in H as [Hc Hw].
  now rewrite (white_not_flag _ Hc), IH.
Qed.

Lemma white_zone (w : string) :
  all_chars white w = true -> all_chars flag_or_white w = true.
Proof.
  apply all_chars_impl. intros c Hc. unfold flag_or_white.
  now rewrite Hc, orb_true_r.
Qed.

Lemma length_app (a b : string) :
  String.length (a ++ b) = (String.length a + String.length b)%nat.
Proof. induction a; simpl; congruence. Qed.

(** The loop over a text of flags and white space takes every flag and
    stops in front of the white space at the end. *)
Lemma loop_zone (fuel : nat) :
  forall fz,
    all_chars flag_or_white fz = true ->
    (String.length fz < fuel)%nat ->
    exists rem,
      ZeroOrMore_loop fuel flag fz = (chars (keep flag_char fz), rem)
      /\ all_chars white rem = true.
Proof.
  induction fuel as [|fuel IH]; intros fz Hfz Hlen; [lia|].
  cbn [ZeroOrMore_loop]. rewrite parse_flag.
  destruct (preParse_cases fz)
    as [[-> Hw] | (w & c & r & -> & Hw & Hc & ->)].
  - exists fz. now rewrite (keep_flag_white _ Hw).
  - rewrite all_chars_app in Hfz. cbn [all_chars] in Hfz.
    apply andb_prop in Hfz as [_ Hfz]. apply andb_prop in Hfz as [Hflag Hr].
    unfold flag_or_white in Hflag. rewrite Hc, orb_false_r in Hflag.
    rewrite Hflag. rewrite length_app in Hlen. cbn [String.length] in Hlen.
    destruct (IH r Hr) as (rem & -> & Hrem); [lia|].
    exists rem. split; [|assumption].
    rewrite keep_app, (keep_flag_white _ Hw). cbn [keep append].
    now rewrite Hflag.
Qed.

Lemma parse_zone (fz : string) :
  all_chars flag_or_white fz = true ->
  exists rem,
    _parse (ZeroOrMore flag) fz = Some (chars (keep flag_char fz), rem)
    /\ all_chars white rem = true.
Proof.
  intros Hfz. rewrite parse_ZeroOrMore, parse_flag.
  destruct (preParse_cases fz)
    as [[-> Hw] | (w & c & r & -> & Hw & Hc & ->)].
  - exists "". now rewrite (keep_flag_white _ Hw).
  - rewrite all_chars_app in Hfz. cbn [all_chars] in Hfz.
    apply andb_prop in Hfz as [_ Hfz]. apply andb_prop in Hfz as [Hflag Hr].
    unfold flag_or_white in Hflag. rewrite Hc, orb_false_r in Hflag.
    rewrite Hflag.
    destruct (loop_zone (S (String.length r)) r Hr) as (rem & -> & Hrem);
      [lia|].
    exists rem. split; [|assumption].
    rewrite keep_app, (keep_flag_white _ Hw). cbn [keep append].
    now rewrite Hflag.
Qed.

Lemma loop_zone_inv (fuel : nat) :
  forall s ts rem,
    ZeroOrMore_loop fuel flag s = (ts, rem) ->
    exists fz,
      s = fz ++ rem /\ all_chars flag_or_white fz = true
      /\ ts = chars (keep flag_char fz).
Proof.
  induction fuel as [|fuel IH]; intros s ts rem H.
  - inversion H; subst. now exists "".
  - cbn [ZeroOrMore_loop] in H. rewrite parse_flag in H.
    destruct (preParse_cases s)
      as [[E Hw] | (w & c & r & -> & Hw & Hc & E)]; rewrite E in H.
    + inversion H; subst. now exists "".
    + destruct (flag_char c) eqn:Hflag.
      * destruct (ZeroOrMore_loop fuel flag r) as [ts' rem'] eqn:El.
        inversion H; subst.
        destruct (IH _ _ _ El) as (fz & -> & Hfz & ->).
        exists (w ++ String c fz). split; [|split].
        -- now rewrite string_app_assoc.
        -- rewrite all_chars_app. cbn [all_chars].
           unfold flag_or_white at 2. rewrite Hflag, Hfz, (white_zone _ Hw).
           reflexivity.
        -- rewrite keep_app, (keep_flag_white _ Hw). cbn [keep append].
           now rewrite Hflag.
      * inversion H; subst. now exists "".
Qed.

Lemma parse_zone_inv (s : string) (ts : ParseResults) (rem : string) :
  _parse (ZeroOrMore flag) s = Some (ts, rem) ->
  exists fz,
    s = fz ++ rem /\ all_chars flag_or_white fz = true
    /\ ts = chars (keep flag_char fz).
Proof.
  rewrite parse_ZeroOrMore, parse_flag. intros H.
  destruct (preParse_cases s)
    as [[E Hw] | (w & c & r & -> & Hw & Hc & E)]; rewrite E in H.
  - inversion H; subst. exists s. rewrite append_nil_r.
    now rewrite (white_zone _ Hw), (keep_flag_white _ Hw).
  - destruct (flag_char c) eqn:Hflag.
    + destruct (ZeroOrMore_loop _ flag r) as [ts' rem'] eqn:El.
      inversion H; subst.
      destruct (loop_zone_inv _ _ _ _ El) as (fz & -> & Hfz & ->).
      exists (w ++ String c fz). split; [|split].
      * now rewrite string_app_assoc.
      * rewrite all_chars_app. cbn [all_chars].
        unfold flag_or_white at 2. rewrite Hflag, Hfz, (white_zone _ Hw).
        reflexivity.
      * rewrite keep_app, (keep_flag_white _ Hw). cbn [keep append].
        now rewrite Hflag.
    + inversion H; subst. exists w. split; [reflexivity|].
      now rewrite (white_zone _ Hw), (keep_flag_white _ Hw).
Qed.

Lemma parse_slash_split (s : string) (ts : ParseResults) (r : string) :
  _parse (suppress (Literal "/")) s = Some (ts, r) ->
  exists w, all_chars white w = true /\ s = w ++ String "/" r /\ ts = [].
Proof.
  rewrite parse_slash. intros H.
  destruct (preParse_cases s)
    as [[E _] | (w & c & r' & -> & Hw & _ & E)]; rewrite E in H;
    [discriminate|].
  destruct (Ascii.eqb_spec c SLASH) as [->|_]; [|discriminate].
  inversion H; subst. now exists w.
Qed.

Lemma parse_Word_split (s : string) (ts : ParseResults) (r : string) :
  _parse (Word pattern_char) s = Some (ts, r) ->
  exists w p,
    all_chars white w = true /\ part p /\ s = w ++ p ++ r /\ ts = [p]
    /\ match r with
       | String c _ => pattern_char c = false
       | EmptyString => True
       end.
Proof.
  rewrite parse_Word. intros H.
  destruct (preParse_cases s)
    as [[E _] | (w & c & r' & -> & Hw & Hc & E)]; rewrite E in H;
    [discriminate|].
  destruct (span pattern_char (String c r')) as [p rest] eqn:Es.
  destruct (span_spec _ _ _ _ Es) as (Heq & Hp & Hstop).
  destruct p as [|d p]; [discriminate|]. inversion H; subst.
  cbn [append] in Heq. inversion Heq; subst.
  exists w, (String d p). repeat split; auto.
  cbn [starts_black]. now rewrite Hc.
Qed.

Lemma preParse_white (w : string) :
  all_chars white w = true -> preParse w = "".
Proof.
  intros Hw. rewrite <- (append_nil_r w). now rewrite preParse_white_app.
Qed.

Lemma stop_is_black (s : string) :
  match s with
  | String c _ => pattern_char c = false
  | EmptyString => True
  end ->
  all_chars white s = true -> s = "".
Proof.
  destruct s as [|c s]; [reflexivity|]. cbn [all_chars]. intros Hc H.
  apply andb_prop in H as [Hw _].
  apply white_is_pattern_char in Hw. congruence.
Qed.

Lemma stop_has_no_white_front (w s : string) :
  match w ++ s with
  | String c _ => pattern_char c = false
  | EmptyString => True
  end ->
  all_chars white w = true -> w = "".
Proof.
  destruct w as [|c w]; [reflexivity|]. cbn [append all_chars]. intros Hc H.
  apply andb_prop in H as [Hw _].
  apply white_is_pattern_char in Hw. congruence.
Qed.

(** What [regexBNF] makes of a text, white space and all. *)
Lemma regexBNF_parses_iff (t : string) (toks : ParseResults) :
  (exists rest, _parse regexBNF t = Some (toks, rest)) <->
  exists w0 w1 p w2 r,
    all_chars white w0 = true /\ all_chars white w1 = true
    /\ all_chars white w2 = true /\ part p /\ part r
    /\ ((t = w0 ++ "/" ++ w1 ++ p ++ "/" ++ w2 ++ r /\ toks = [p; r])
        \/ exists fz,
             all_chars flag_or_white fz = true
             /\ t = w0 ++ "/" ++ w1 ++ p ++ "/" ++ w2 ++ r ++ "/" ++ fz
             /\ toks = p :: r :: chars (keep flag_char fz)).
Proof.
  rewrite regexBNF_flag. split.
  - intros [rest H]. rewrite !parse_And in H.
    destruct (_parse (suppress (Literal "/")) t) as [[t0 s1]|] eqn:E0;
      [|discriminate].
    destruct (parse_slash_split _ _ _ E0) as (w0 & Hw0 & -> & ->).
    destruct (_parse (Word pattern_char) s1) as [[t1 s2]|] eqn:E1;
      [|discriminate].
    destruct (parse_Word_split _ _ _ E1)
      as (w1 & p & Hw1 & Hp & -> & -> & Hstop1).
    destruct (_parse (suppress (Literal "/")) s2) as [[t2 s3]|] eqn:E2;
      [|discriminate].
    destruct (parse_slash_split _ _ _ E2) as (w & Hw & -> & ->).
    rewrite (stop_has_no_white_front w _ Hstop1 Hw) in *.
    destruct (_parse (Word pattern_char) s3) as [[t3 s4]|] eqn:E3;
      [|discriminate].
    destruct (parse_Word_split _ _ _ E3)
      as (w2 & r & Hw2 & Hr & -> & -> & Hstop).
    clear E0 E1 E2 E3 Hstop1. cbn [append] in *.
    exists w0, w1, p, w2, r. repeat (split; [assumption|]).
    rewrite parse_Optional, parse_And in H.
    destruct (_parse (suppress (Literal "/")) s4) as [[t4 s5]|] eqn:E4.
    + destruct (parse_slash_split _ _ _ E4) as (v & Hv & -> & ->).
      rewrite (stop_has_no_white_front v _ Hstop Hv) in *. cbn [append] in *.
      destruct (_parse (ZeroOrMore flag) s5) as [[t5 s6]|] eqn:E5;
        [|rewrite parse_ZeroOrMore in E5;
          destruct (_parse flag s5) as [[? ?]|];
          [destruct (ZeroOrMore_loop _ _ _)|]; discriminate].
      destruct (parse_zone_inv _ _ _ E5) as (fz & -> & Hfz & ->).
      rewrite parse_StringEnd in H.
      destruct (preParse_cases s6) as [[E Hwhite] | (? & ? & ? & _ & _ & _ & E)];
        rewrite E in H; [|discriminate].
      inversion H; subst. right. exists (fz ++ s6). split; [|split].
      * now rewrite all_chars_app, Hfz, (white_zone _ Hwhite).
      * reflexivity.
      * rewrite keep_app, (keep_flag_white _ Hwhite), append_nil_r.
        cbn [app]. now rewrite app_nil_r.
    + rewrite parse_StringEnd, preParse_idem in H.
      destruct (preParse_cases s4) as [[E Hwhite] | (? & ? & ? & _ & _ & _ & E)];
        rewrite E in H; [|discriminate].
      inversion H; subst. left.
      rewrite (stop_is_black _ Hstop Hwhite), append_nil_r. auto.
  - intros (w0 & w1 & p & w2 & r & Hw0 & Hw1 & Hw2 & [Hbp Hp] & [Hbr Hr]
            & Hform).
    rewrite !parse_And.
    assert (Hhead : forall x,
               _parse (suppress (Literal "/")) (w0 ++ "/" ++ x)
               = Some ([], x)).
    { intros x. now rewrite (parse_skips_white _ w0 _ Hw0). }
    destruct Hform as [[-> ->] | (fz & Hfz & -> & ->)]; rewrite Hhead.
    + rewrite (parse_skips_white _ w1 _ Hw1).
      change (p ++ "/" ++ w2 ++ r) with (p ++ String "/" (w2 ++ r)).
      rewrite (parse_Word_app p (String "/" (w2 ++ r)) Hbp Hp eq_refl).
      rewrite parse_slash_head.
      rewrite (parse_skips_white _ w2 _ Hw2).
      pose proof (parse_Word_app r "" Hbr Hr I) as Hword.
      rewrite append_nil_r in Hword. rewrite Hword. cbn. eauto.
    + rewrite (parse_skips_white _ w1 _ Hw1).
      change (p ++ "/" ++ w2 ++ r ++ "/" ++ fz)
        with (p ++ String "/" (w2 ++ r ++ String "/" fz)).
      rewrite (parse_Word_app p (String "/" (w2 ++ r ++ String "/" fz))
                              Hbp Hp eq_refl).
      rewrite parse_slash_head.
      rewrite (parse_skips_white _ w2 _ Hw2).
      rewrite (parse_Word_app r (String "/" fz) Hbr Hr eq_refl).
      rewrite parse_Optional, parse_And, parse_slash_head.
      destruct (parse_zone fz Hfz) as (rem & -> & Hrem).
      rewrite parse_StringEnd, (preParse_white _ Hrem). cbn [app].
      rewrite app_nil_r. eauto.
Qed.

(** X13.  The rule grammar, white space and all.  A rule string is
    parsed exactly when its text, tabs expanded, is a [/], a pattern, a
    [/] and a replacement, alone or followed by a [/] and a run of flags
    and white space, where white space may stand before the first [/] and
    before the pattern and the replacement, which are made of characters
    of the grammar and do not begin with white space; the tokens are the
    pattern, the replacement and the flags, one token per flag. *)
Theorem rule_is_parsed_iff (regex : string) (parsed : ParseResults) :
  parseString regexBNF regex = Some parsed <->
  exists w0 w1 p w2 r,
    all_chars white w0 = true /\ all_chars white w1 = true
    /\ all_chars white w2 = true /\ part p /\ part r
    /\ ((expandtabs regex = w0 ++ "/" ++ w1 ++ p ++ "/" ++ w2 ++ r
         /\ parsed = [p; r])
        \/ exists fz,
             all_chars flag_or_white fz = true
             /\ expandtabs regex
                = w0 ++ "/" ++ w1 ++ p ++ "/" ++ w2 ++ r ++ "/" ++ fz
             /\ parsed = p :: r :: chars (keep flag_char fz)).
Proof.
  rewrite <- regexBNF_parses_iff. unfold parseString.
  destruct (_parse regexBNF (expandtabs regex)) as [[toks rest]|]; split.
  - intros H. inversion H; subst. eauto.
  - intros [rest' H]. now inversion H.
  - discriminate.
  - intros [rest' H]. discriminate.
Qed.

Lemma spaces_no_tab (n : nat) : all_chars not_tab (spaces n) = true.
Proof. induction n; simpl; auto. Qed.

Lemma expandtabs_from_has_no_tab (s : string) :
  forall col, all_chars not_tab (expandtabs_from col s) = true.
Proof.
  induction s as [|c s IH]; intros col; cbn [expandtabs_from];
    [reflexivity|].
  destruct (Ascii.eqb c TAB) eqn:E.
  - now rewrite all_chars_app, spaces_no_tab, IH.
  - destruct (Ascii.eqb c LF || Ascii.eqb c CR); cbn [all_chars];
      unfold not_tab at 1; now rewrite E, IH.
Qed.

Lemma keep_all (ok : ascii -> bool) (s : string) :
  all_chars ok (keep ok s) = true.
Proof.
  induction s as [|c s IH]; simpl; [reflexivity|].
  destruct (ok c) eqn:E; simpl; now rewrite ?E, IH.
Qed.

(** X14.  The two strings of a parsed rule, from its text.  The text,
    tabs expanded, is a [/], a pattern, a [/] and the replacement, with
    white space allowed before each of the three, and then nothing or a
    [/] and a run of flags and white space.  The replacement is not
    empty, holds no [/] and no tab and does not begin with white space,
    and so the pattern.  The regex is the pattern, alone exactly when the
    text has no flag, and otherwise behind [(?flags)], the flags of the
    text in their order without the white space between them, each one of
    the letters [i], [L], [s], [u], [x]. *)
Theorem parts_of_a_parsed_rule (regex regex_str replace_str : string) :
  parse_rule regex = Some (regex_str, replace_str) ->
  exists w0 w1 p w2 tail f,
    all_chars white w0 = true /\ all_chars white w1 = true
    /\ all_chars white w2 = true
    /\ expandtabs regex
       = w0 ++ "/" ++ w1 ++ p ++ "/" ++ w2 ++ replace_str ++ tail
    /\ ((tail = "" /\ f = "")
        \/ exists fz,
             all_chars flag_or_white fz = true
             /\ tail = "/" ++ fz
             /\ f = keep flag_char fz)
    /\ parseString regexBNF regex = Some (p :: replace_str :: chars f)
    /\ regex_str = (if String.eqb f "" then p else "(?" ++ f ++ ")" ++ p)
    /\ part p /\ all_chars not_tab p = true
    /\ part replace_str /\ all_chars not_tab replace_str = true
    /\ all_chars flag_char f = true.
Proof.
  unfold parse_rule, parseString.
  destruct (_parse regexBNF (expandtabs regex)) as [[toks rest]|] eqn:E;
    [|discriminate].
  pose proof (expandtabs_from_has_no_tab regex 0) as Htab.
  fold (expandtabs regex) in Htab.
  destruct (proj1 (regexBNF_parses_iff _ _) (ex_intro _ rest E))
    as (w0 & w1 & p & w2 & r & Hw0 & Hw1 & Hw2 & Hp & Hr
        & [[Ht ->] | (fz & Hfz & Ht & ->)]);
    rewrite Ht in Htab;
    change ("/" ++ ?x) with (String "/" x) in Htab;
    rewrite ?all_chars_app in Htab; cbn [all_chars] in Htab;
    rewrite ?all_chars_app in Htab; cbn [all_chars] in Htab;
    rewrite ?all_chars_app in Htab;
    repeat (apply andb_prop in Htab as [? Htab]);
    unfold rule_strings; cbn [List.length];
    rewrite ?length_chars, ?join_chars; intros Hrs.
  - cbn in Hrs. injection Hrs as <- <-.
    exists w0, w1, p, w2, "", "".
    repeat (split; [assumption|]).
    split; [now rewrite append_nil_r|].
    split; [now left|].
    repeat split; try apply Hp; try apply Hr; assumption.
  - exists w0, w1, p, w2, ("/" ++ fz), (keep flag_char fz).
    assert (Hrule : regex_str
                    = (if String.eqb (keep flag_char fz) ""
                       then p
                       else "(?" ++ keep flag_char fz ++ ")" ++ p)
                    /\ replace_str = r).
    { destruct (keep flag_char fz) as [|c f]; cbn in Hrs;
        injection Hrs as <- <-; split; reflexivity. }
    destruct Hrule as [-> ->].
    repeat (split; [assumption|]).
    split; [right; exists fz; auto|].
    repeat split; try apply Hp; try apply Hr; try assumption.
    apply keep_all.
Qed.

Lemma count_slash_none (ok : ascii -> bool) (s : string) :
  (forall c, ok c = true -> Ascii.eqb c SLASH = false) ->
  all_chars ok s = true -> count_slash s = 0%nat.
Proof.
  intros Hok. induction s as [|c s IH]; cbn [all_chars count_slash];
    [reflexivity|].
  intros H. apply andb_prop in H as [Hc Hs].
  now rewrite (Hok _ Hc), (IH Hs).
Qed.

Lemma white_no_slash (c : ascii) :
  white c = true -> Ascii.eqb c SLASH = false.
Proof.
  intros H. apply white_is_pattern_char in H. unfold pattern_char in H.
  apply andb_prop in H as [_ H]. now apply negb_true_iff in H.
Qed.

Lemma pattern_char_no_slash (c : ascii) :
  pattern_char c = true -> Ascii.eqb c SLASH = false.
Proof.
  unfold pattern_char. intros H.
  apply andb_prop in H as [_ H]. now apply negb_true_iff in H.
Qed.

Lemma zone_no_slash (c : ascii) :
  flag_or_white c = true -> Ascii.eqb c SLASH = false.
Proof.
  unfold flag_or_white. intros H. apply orb_prop in H as [H|H].
  - destruct (Ascii.eqb_spec c SLASH) as [->|_]; [discriminate H|].
    reflexivity.
  - now apply white_no_slash.
Qed.

Lemma count_slash_spaces (n : nat) : count_slash (spaces n) = 0%nat.
Proof. induction n; simpl; auto. Qed.

Lemma count_slash_expandtabs_from (s : string) :
  forall col, count_slash (expandtabs_from col s) = count_slash s.
Proof.
  induction s as [|c s IH]; intros col; cbn [expandtabs_from count_slash];
    [reflexivity|].
  destruct (Ascii.eqb_spec c TAB) as [->|_].
  - now rewrite count_slash_app, count_slash_spaces, IH.
  - destruct (Ascii.eqb c LF || Ascii.eqb c CR); cbn [count_slash];
      now rewrite IH.
Qed.

(** X15.  A rule string that is parsed holds two [/], and then has no
    flag, or three: with fewer or with more it is refused, so that no
    pattern and no replacement with a [/] inside can be given. *)
Theorem slashes_of_a_parsed_rule (regex : string) (parsed : ParseResults) :
  parseString regexBNF regex = Some parsed ->
  (count_slash regex = 2%nat /\ List.length parsed = 2%nat)
  \/ count_slash regex = 3%nat.
Proof.
  unfold parseString.
  destruct (_parse regexBNF (expandtabs regex)) as [[toks rest]|] eqn:E;
    [|discriminate].
  intros H. inversion H; subst. clear H.
  rewrite <- (count_slash_expandtabs_from regex 0).
  fold (expandtabs regex).
  destruct (proj1 (regexBNF_parses_iff _ _) (ex_intro _ rest E))
    as (w0 & w1 & p & w2 & r & Hw0 & Hw1 & Hw2 & [_ Hp] & [_ Hr]
        & [[-> ->] | (fz & Hfz & -> & ->)]);
    change ("/" ++ ?x) with (String "/" x);
    rewrite ?count_slash_app; cbn [count_slash];
    rewrite ?count_slash_app; cbn [count_slash];
    rewrite ?count_slash_app; cbn [count_slash];
    rewrite (count_slash_none _ _ white_no_slash Hw0),
      (count_slash_none _ _ white_no_slash Hw1),
      (count_slash_none _ _ white_no_slash Hw2),
      (count_slash_none _ _ pattern_char_no_slash Hp),
      (count_slash_none _ _ pattern_char_no_slash Hr).
  - left. split; reflexivity.
  - right. now rewrite (count_slash_none _ _ zone_no_slash Hfz).
Qed.

End Whole_grammar.

(** ** Further examples, on the small engine *)

Module More_examples.
Import MiniRe Samples.
Local Open Scope Z_scope.

Lemma totals_do_not_depend_on_order_witness :
  Permutation [timed "Lunch" 0 900; timed "Meeting A" 900 3600]
              [timed "Meeting A" 900 3600; timed "Lunch" 0 900]
  /\ snd (aggregate [timed "Lunch" 0 900; timed "Meeting A" 900 3600]
                    None None false (rules_of ["/Meeting.*/Work/"]))
     = snd (aggregate [timed "Meeting A" 900 3600; timed "Lunch" 0 900]
                      None None false (rules_of ["/Meeting.*/Work/"])).
Proof.
  split; [apply perm_swap|].
  exact (proj2 (totals_do_not_depend_on_order
                  None None false (rules_of ["/Meeting.*/Work/"])
                  [timed "Lunch" 0 900; timed "Meeting A" 900 3600]
                  [timed "Meeting A" 900 3600; timed "Lunch" 0 900]
                  (perm_swap _ _ _))).
Defined.

Lemma groups_are_within_the_total_witness :
  Forall (fun event => 0 <= duration event) meetings
  /\ 0 <= get (fst (aggregate meetings None None false
                              (rules_of ["/Meeting.*/Work/"]))) "Work"
       <= snd (aggregate meetings None None false
                         (rules_of ["/Meeting.*/Work/"])).
Proof.
  assert (H : Forall (fun event => 0 <= duration event) meetings)
    by (repeat constructor; discriminate).
  split; [exact H|].
  exact (groups_are_within_the_total
           None None false (rules_of ["/Meeting.*/Work/"]) meetings "Work" H).
Defined.

Lemma wider_range_keeps_events_witness :
  start_not_after None (Some 0)
  /\ end_not_before (Some 7200) (Some 3600)
  /\ skipped (Some 0) (Some 3600) false (timed "Lunch" 900 900) = false
  /\ skipped None (Some 7200) false (timed "Lunch" 900 900) = false
  /\ skipped None (Some 7200) true (timed "Lunch" 900 900) = false.
Proof.
  assert (H1 : start_not_after None (Some 0)) by exact I.
  assert (H2 : end_not_before (Some 7200) (Some 3600))
    by (simpl; discriminate).
  split; [exact H1|]. split; [exact H2|]. split; [reflexivity|].
  exact (wider_range_keeps_events (Some 0) (Some 3600) None (Some 7200)
                                  false (timed "Lunch" 900 900)
                                  H1 H2 eq_refl).
Defined.

Lemma parsed_rules_keep_order_witness :
  _parse_regexes ["/Meeting.*/Work/"; "/Lunch.*/Personal/"]
  = ([Replacing "Meeting.*" "Work"; Replacing "Lunch.*" "Personal"],
     inr (rules_of ["/Meeting.*/Work/"; "/Lunch.*/Personal/"]))
  /\ List.length (rules_of ["/Meeting.*/Work/"; "/Lunch.*/Personal/"])
     = 2%nat.
Proof.
  split; [reflexivity|].
  exact (proj1 (parsed_rules_keep_order
                  ["/Meeting.*/Work/"; "/Lunch.*/Personal/"]
                  [Replacing "Meeting.*" "Work";
                   Replacing "Lunch.*" "Personal"]
                  (rules_of ["/Meeting.*/Work/"; "/Lunch.*/Personal/"])
                  eq_refl)).
Defined.

Lemma rules_stop_at_first_bad_rule_witness :
  let strs := ["/Meeting.*/Work/"; "/onlyone/"; "/*/x/"] in
  let out := [Replacing "Meeting.*" "Work"; Unable "/onlyone/"] in
  let e := ParseException "/onlyone/" in
  _parse_regexes strs = (out, inl e)
  /\ exists before bad rest,
       strs = (before ++ bad :: rest)%list
       /\ Forall usable before
       /\ ~ usable bad
       /\ ((parseString regexBNF bad = None
            /\ e = ParseException (expandtabs bad))
           \/ exists regex_str replace_str,
                parse_rule bad = Some (regex_str, replace_str)
                /\ compile regex_str = None
                /\ e = re_error regex_str)
       /\ forall rest',
            _parse_regexes (before ++ bad :: rest') = (out, inl e)
            /\ forall calendar start_date end_date allday,
                 _process_calendar calendar start_date end_date allday
                                   (before ++ bad :: rest')
                 = (Processing start_date end_date :: out, inl e).
Proof.
  intros strs out e. split; [reflexivity|].
  exact (rules_stop_at_first_bad_rule strs out e eq_refl).
Defined.

Lemma parts_of_a_parsed_rule_witness :
  parse_rule "/ Team Meeting/Work time/ i s" = Some ("(?is)Team Meeting",
                                                     "Work time")
  /\ exists w0 w1 p w2 tail f,
       all_chars white w0 = true /\ all_chars white w1 = true
       /\ all_chars white w2 = true
       /\ expandtabs "/ Team Meeting/Work time/ i s"
          = (w0 ++ "/" ++ w1 ++ p ++ "/" ++ w2 ++ "Work time" ++ tail)%string
       /\ ((tail = "" /\ f = "")
           \/ exists fz,
                all_chars flag_or_white fz = true
                /\ tail = ("/" ++ fz)%string
                /\ f = keep flag_char fz)
       /\ parseString regexBNF "/ Team Meeting/Work time/ i s"
          = Some (p :: "Work time" :: chars f)
       /\ "(?is)Team Meeting"
          = (if String.eqb f "" then p else "(?" ++ f ++ ")" ++ p)%string
       /\ part p /\ all_chars not_tab p = true
       /\ part "Work time" /\ all_chars not_tab "Work time" = true
       /\ all_chars flag_char f = true.
Proof.
  split; [reflexivity|].
  exact (parts_of_a_parsed_rule "/ Team Meeting/Work time/ i s"
                                "(?is)Team Meeting" "Work time" eq_refl).
Defined.

Lemma slashes_of_a_parsed_rule_witness :
  parseString regexBNF "/foo/bar/i" = Some ["foo"; "bar"; "i"]
  /\ ((count_slash "/foo/bar/i" = 2%nat
       /\ List.length ["foo"; "bar"; "i"] = 2%nat)
      \/ count_slash "/foo/bar/i" = 3%nat).
Proof.
  split; [reflexivity|].
  exact (slashes_of_a_parsed_rule "/foo/bar/i" ["foo"; "bar"; "i"] eq_refl).
Defined.

Lemma hours_are_the_nearest_float_witness :
  0 < 57
  /\ exists m : Z,
       2 ^ 52 <= m <= 2 ^ 53
       /\ _total_hours 57
          = (inject_Z m
             * 2 ^ (Binary64.exponent (inject_Z 57 / 3600) - 52))%Q
       /\ (_total_hours 57
           - 2 ^ (Binary64.exponent (inject_Z 57 / 3600) - 53)
           <= inject_Z 57 / 3600)%Q
       /\ (inject_Z 57 / 3600
           <= _total_hours 57
              + 2 ^ (Binary64.exponent (inject_Z 57 / 3600) - 53))%Q.
Proof.
  split; [reflexivity|].
  exact (proj2 (proj2 (hours_are_the_nearest_float 57 eq_refl))).
Defined.

(** The end date stands first and is converted first: its [ValueError]
    ends the run in a usage error, and the start date, which arrow does
    not read either, is not looked at. *)
Example options_are_converted_in_their_order :
  main old_arrow
       {| optionals := [opt_calendar "meetings.ics";
                        opt_enddate "1970-02-30";
                        opt_startdate "yesterday"];
          positionals := [] |}
  = ([], inl (SystemExit 2 (invalid_value "-e/--enddate" "_valid_date"
                                          "1970-02-30")))
  /\ main old_arrow
          {| optionals := [opt_startdate "yesterday";
                           opt_enddate "1970-02-30"];
             positionals := [] |}
     = ([], inl ParserError).
Proof. split; reflexivity. Qed.

Example calendar_is_required :
  main old_arrow
       {| optionals := [opt_startdate "1970-01-01"];
          positionals := ["/Meeting.*/Work/"] |}
  = ([], inl (SystemExit 2 (required_arguments "-c/--calendar")))
  /\ main old_arrow
          {| optionals := [opt_calendar "none.ics"];
             positionals := [] |}
     = ([], inl (SystemExit
                   2 (argument_error
                        "-c/--calendar"
                        ("can't open 'none.ics': [Errno 2] "
                         ++ "No such file or directory: 'none.ics'")))).
Proof. split; reflexivity. Qed.

(** A date that arrow cannot read, with the [ParserError] of an arrow in
    which it is a [RuntimeError] and of one in which it is a
    [ValueError]: neither run shows the message "Not a valid date". *)
Example date_that_arrow_cannot_read :
  let argv := {| optionals := [opt_calendar "meetings.ics";
                               opt_startdate "yesterday"];
                 positionals := [] |} in
  main old_arrow argv = ([], inl ParserError)
  /\ main new_arrow argv
     = ([], inl (SystemExit 2 (invalid_value "-s/--startdate"
                                             "_valid_date" "yesterday"))).
Proof. split; reflexivity. Qed.

Example last_option_wins :
  main old_arrow
       {| optionals := [opt_allday ""; opt_startdate "1970-01-02";
                        opt_calendar "meetings.ics"; opt_allday "False";
                        opt_startdate "1970-01-01"];
          positionals := [] |}
  = _process_calendar meetings (Some 0) None true [].
Proof. reflexivity. Qed.

End More_examples.
